(** * A one-dimensional HLL finite-volume solver: embedding and properties

    Shallow embedding of the numerical core of the solver (grid.h, grid.cpp,
    solver.h, solver.cpp), of the file names and the parameter file of
    utils.cpp, and proofs of the properties stated for them.

    Conventions of the embedding.
    - A C++ [double] is a real number of [R]: arithmetic is exact, there is no
      rounding, no infinity and no NaN.  Where C++ would produce a NaN or an
      infinity (the square root of a negative number, a division by zero) the
      embedding has the value of Rocq's total function; what the theorems say
      about the C++ program leaves such inputs out.  [std::max], [std::min],
      [std::abs] and [std::sqrt] are written out in [Module Std].
    - A C++ [int] used as a cell index or a cell count is an integer of [Z];
      the bounds tests of the source are kept as they are written.
    - [std::vector<Cell>] is a [list]; [cells_[i] = c] is stdpp's list insert
      and [cells_[i]] is a lookup.
    - A method that mutates the grid is a computation of a small state monad
      over the grid; a [const] method only reads the state.
    - A [std::string] is a [string]; the lines of the parameter file, which
      are searched and cut, are lists of characters.  [std::stoi] and
      [std::stod] are parameters of the functions that call them, [None]
      standing for the exception they throw.
    - The properties carry the hypotheses under which the C++ program
      computes finite numbers (gamma >= 0 for the sound speed, gamma > 1,
      dx not zero), also where the proof over the reals does not use them.
    - An equation between computed values holds in the program up to
      rounding.  Where the outcome of a test of the program can differ from
      its outcome over the reals (the sum of a clamped time step, a cell
      centre that falls on the interface position) the statements keep the
      expression of the code or leave the outcome open; [Module Binary64]
      evaluates the clamped advance of the time on binary64 numbers. *)

From Stdlib Require Import Reals Lra ZArith Lia String Ascii DecimalString.
From Stdlib Require DecimalZ DecimalPos PrimFloat.
From stdpp Require Import base list.

Open Scope R_scope.

(** ** <algorithm> and <cmath> *)

Module Std.

(** [std::max(a, b)] is [(a < b) ? b : a]. *)
Definition max (a b : R) : R := if Rlt_dec a b then b else a.

(** [std::min(a, b)] is [(b < a) ? b : a]. *)
Definition min (a b : R) : R := if Rlt_dec b a then b else a.

Definition abs (a : R) : R := Rabs a.

Definition sqrt (a : R) : R := R_sqrt.sqrt a.

End Std.

(** ** grid.h, solver.h: the three structs *)

Module Cell.
Record t : Type := mk { rho : R; mom : R; energy : R }.
End Cell.

Module Primitive.
Record t : Type := mk { rho : R; u : R; p : R }.
End Primitive.

Module Flux.
Record t : Type := mk { rho : R; mom : R; eng : R }.
End Flux.

(** [constexpr double GAMMA = 1.4;] *)
Definition GAMMA : R := 1.4.

(** ** A state monad for code that works on a mutable object *)

Definition State (S A : Type) : Type := S -> A * S.

Definition ret {S A : Type} (a : A) : State S A := fun s => (a, s).

Definition bind {S A B : Type} (m : State S A) (k : A -> State S B) : State S B :=
  fun s => k (fst (m s)) (snd (m s)).

Definition gets {S A : Type} (f : S -> A) : State S A := fun s => (f s, s).

Definition modify {S : Type} (f : S -> S) : State S unit := fun s => (tt, f s).

Declare Scope state_scope.
Delimit Scope state_scope with state.
Notation "x <- m ;; k" := (bind m (fun x => k))
  (at level 100, m at next level, right associativity) : state_scope.
Notation "m ;; k" := (bind m (fun _ => k))
  (at level 100, right associativity) : state_scope.

(** [for (x : l) body(x);] *)
Fixpoint for_ {S A : Type} (l : list A) (body : A -> State S unit) : State S unit :=
  match l with
  | [] => ret tt
  | x :: l' => bind (body x) (fun _ => for_ l' body)
  end.

(** A loop that fills a local vector, one element per iteration. *)
Fixpoint mapM {S A B : Type} (f : A -> State S B) (l : list A) : State S (list B) :=
  match l with
  | [] => ret []
  | x :: l' => bind (f x) (fun y => bind (mapM f l') (fun ys => ret (y :: ys)))
  end.

(** ** grid.cpp: helpers (they use the global GAMMA) *)

Definition conservedToPrimitive (c : Cell.t) : Primitive.t :=
  let rho := Cell.rho c in
  let rho := if Rle_dec rho 1e-14 then 1e-14 else rho in
  let u := Cell.mom c / rho in
  let kinetic := 0.5 * rho * u * u in
  let internal_energy := Cell.energy c - kinetic in
  let p := (GAMMA - 1.0) * internal_energy in
  let p := if Rle_dec p 1e-14 then 1e-14 else p in
  Primitive.mk rho u p.

Definition primitiveToConserved (p : Primitive.t) : Cell.t :=
  let internal := Primitive.p p / (GAMMA - 1.0) in
  let kinetic := 0.5 * Primitive.rho p * Primitive.u p * Primitive.u p in
  Cell.mk (Primitive.rho p) (Primitive.rho p * Primitive.u p) (internal + kinetic).

(** ** grid.cpp: class Grid *)

Module Grid.

Record t : Type := mk {
  nx_ : Z;
  x0_ : R;
  x1_ : R;
  dx_ : R;
  cells_ : list Cell.t
}.

Definition zero_cell : Cell.t := Cell.mk 0.0 0.0 0.0.

(** [v[i]] on the vector of cells.  The source reaches it only with
    [0 <= i < v.size()]; elsewhere C++ leaves it undefined and the
    embedding answers the zero cell. *)
Definition at_ (v : list Cell.t) (i : Z) : Cell.t :=
  if (0 <=? i)%Z then default zero_cell (v !! Z.to_nat i) else zero_cell.

Definition set_cells (v : list Cell.t) (g : t) : t :=
  mk (nx_ g) (x0_ g) (x1_ g) (dx_ g) v.

(** The class invariant: the constructor allocates [nx_ > 0] cells and no
    method resizes the vector. *)
Definition wf (g : t) : Prop :=
  (0 < nx_ g)%Z /\ Z.of_nat (length (cells_ g)) = nx_ g.

(** [Grid::Grid(int nx, double x0, double x1)] *)
Definition construct (nx : Z) (x0 x1 : R) : t :=
  let nx := if (nx <=? 0)%Z then 100%Z else nx in
  let dx := (x1 - x0) / IZR nx in
  mk nx x0 x1 dx (replicate (Z.to_nat nx) zero_cell).

(** [void Grid::initialize(left, right, interface_pos)] *)
Definition initialize (left right : Primitive.t) (interface_pos : R) : State t unit :=
  let cLeft := primitiveToConserved left in
  let cRight := primitiveToConserved right in
  (nx <- gets nx_ ;;
   for_ (seqZ 0 nx) (fun i =>
     x0 <- gets x0_ ;;
     dx <- gets dx_ ;;
     let x := x0 + (IZR i + 0.5) * dx in
     if Rlt_dec x interface_pos
     then modify (fun g => set_cells (<[Z.to_nat i := cLeft]> (cells_ g)) g)
     else modify (fun g => set_cells (<[Z.to_nat i := cRight]> (cells_ g)) g)))%state.

Definition size : State t Z := gets nx_.
Definition dx : State t R := gets dx_.
Definition getX0 : State t R := gets x0_.
Definition cells : State t (list Cell.t) := gets cells_.

(** [std::vector<Primitive> Grid::primitives() const] *)
Definition primitives : State t (list Primitive.t) :=
  (cs <- gets cells_ ;; ret (conservedToPrimitive <$> cs))%state.

(** [void Grid::setCell(int i, const Cell &c)] *)
Definition setCell (i : Z) (c : Cell.t) : State t unit :=
  (nx <- gets nx_ ;;
   if (0 <=? i)%Z && (i <? nx)%Z
   then modify (fun g => set_cells (<[Z.to_nat i := c]> (cells_ g)) g)
   else ret tt)%state.

(** [Cell Grid::getCell(int i) const] *)
Definition getCell (i : Z) : State t Cell.t :=
  (nx <- gets nx_ ;;
   if (0 <=? i)%Z && (i <? nx)%Z
   then (cs <- gets cells_ ;; ret (at_ cs i))
   else ret (Cell.mk 0.0 0.0 0.0))%state.

(** [cells_[i].mom = -cells_[i].mom;] *)
Definition negate_mom (i : Z) : State t unit :=
  modify (fun g =>
    let c := at_ (cells_ g) i in
    set_cells (<[Z.to_nat i := Cell.mk (Cell.rho c) (- Cell.mom c) (Cell.energy c)]> (cells_ g)) g).

(** [void Grid::applyBoundaryConditions(const std::string &bc_type)] *)
Definition applyBoundaryConditions (bc_type : string) : State t unit :=
  (nx <- gets nx_ ;;
   if (nx <? 2)%Z then ret tt
   else if (bc_type =? "outflow")%string || (bc_type =? "transmissive")%string
   then ret tt
   else if (bc_type =? "reflective")%string
   then (negate_mom 0 ;; negate_mom (nx - 1))
   else ret tt)%state.

End Grid.

(** ** utils.h: the parameters and what the driver emits *)

Module Params.
Record t : Type := mk {
  nx : Z;
  x0 : R;
  x1 : R;
  t_final : R;
  cfl : R;
  gamma : R;
  output_dir : string;
  output_dt : R;
  left_rho : R; left_u : R; left_p : R;
  right_rho : R; right_u : R; right_p : R;
  interface_position : R;
  bc_type : string
}.
End Params.

(** The calls the driver makes to its collaborators, in order:
    [Utils::log], [Utils::writeSnapshotCSV] (the snapshot index stands for
    the file name built from it) and the progress line on [std::cout]. *)
Inductive Event : Type :=
  | Log (message : string)
  | Snapshot (snapshot_idx : Z) (g : Grid.t) (time : R)
  | Progress (step_count : Z) (time dt : R).

(** ** solver.cpp *)

Module Solver.

(** [double Solver::soundSpeed(const Primitive &p, double gamma)] *)
Definition soundSpeed (p : Primitive.t) (gamma : R) : R :=
  let press := Std.max (Primitive.p p) 1e-14 in
  let dens := Std.max (Primitive.rho p) 1e-14 in
  Std.sqrt (gamma * press / dens).

(** [Primitive Solver::conservedToPrimitive(const Cell &c, double gamma)] *)
Definition conservedToPrimitive (c : Cell.t) (gamma : R) : Primitive.t :=
  let rho := Std.max (Cell.rho c) 1e-14 in
  let u := Cell.mom c / rho in
  let kinetic := 0.5 * rho * u * u in
  let internal_eng := Cell.energy c - kinetic in
  let p := (gamma - 1.0) * internal_eng in
  let p := Std.max p 1e-14 in
  Primitive.mk rho u p.

(** [Cell Solver::primitiveToConserved(const Primitive &p, double gamma)] *)
Definition primitiveToConserved (p : Primitive.t) (gamma : R) : Cell.t :=
  let internal := Primitive.p p / (gamma - 1.0) in
  let kinetic := 0.5 * Primitive.rho p * Primitive.u p * Primitive.u p in
  Cell.mk (Primitive.rho p) (Primitive.rho p * Primitive.u p) (internal + kinetic).

(** The two wave-speed estimates of [computeHLLFlux] (its locals [SL] and
    [SR], steps 1 and 2 of the function).  The parameter [R] of the source
    is written [R'], [R] being the type of the reals. *)
Definition waveSL (L R' : Primitive.t) (gamma : R) : R :=
  let aL := soundSpeed L gamma in
  let aR := soundSpeed R' gamma in
  Std.min (Primitive.u L - aL) (Primitive.u R' - aR).

Definition waveSR (L R' : Primitive.t) (gamma : R) : R :=
  let aL := soundSpeed L gamma in
  let aR := soundSpeed R' gamma in
  Std.max (Primitive.u L + aL) (Primitive.u R' + aR).

(** [Flux Solver::computeHLLFlux(const Primitive &L, const Primitive &R, double gamma)] *)
Definition computeHLLFlux (L R' : Primitive.t) (gamma : R) : Flux.t :=
  let SL := waveSL L R' gamma in
  let SR := waveSR L R' gamma in
  let UL := primitiveToConserved L gamma in
  let FL := Flux.mk (Cell.mom UL)
                    (Cell.mom UL * Primitive.u L + Primitive.p L)
                    (Primitive.u L * (Cell.energy UL + Primitive.p L)) in
  let UR := primitiveToConserved R' gamma in
  let FR := Flux.mk (Cell.mom UR)
                    (Cell.mom UR * Primitive.u R' + Primitive.p R')
                    (Primitive.u R' * (Cell.energy UR + Primitive.p R')) in
  if Rge_dec SL 0.0 then FL
  else if Rle_dec SR 0.0 then FR
  else
    let denom := 1.0 / (SR - SL) in
    Flux.mk
      ((SR * Flux.rho FL - SL * Flux.rho FR + SL * SR * (Cell.rho UR - Cell.rho UL)) * denom)
      ((SR * Flux.mom FL - SL * Flux.mom FR + SL * SR * (Cell.mom UR - Cell.mom UL)) * denom)
      ((SR * Flux.eng FL - SL * Flux.eng FR + SL * SR * (Cell.energy UR - Cell.energy UL)) * denom).

(** The signal speed of one cell, the body of the loop of [computeCFL]. *)
Definition signal (c : Cell.t) (gamma : R) : R :=
  let p := conservedToPrimitive c gamma in
  let a := soundSpeed p gamma in
  Std.abs (Primitive.u p) + a.

(** [double Solver::computeCFL(const Grid &g, double cfl, double gamma)] *)
Definition computeCFL (cfl gamma : R) : State Grid.t R :=
  (cells <- Grid.cells ;;
   nx <- Grid.size ;;
   let max_signal :=
     fold_left (fun max_signal i =>
                  let signal := signal (Grid.at_ cells i) gamma in
                  if Rgt_dec signal max_signal then signal else max_signal)
               (seqZ 0 nx) 0.0 in
   let max_signal := if Rlt_dec max_signal 1e-9 then 1e-9 else max_signal in
   dx <- Grid.dx ;;
   ret (cfl * dx / max_signal))%state.

(** The left and right states at interface [i], the body of the first
    loop of [step]. *)
Definition interfaceStates (cells : list Cell.t) (nx i : Z) (gamma : R) (bc : string)
  : Primitive.t * Primitive.t :=
  if (i =? 0)%Z then
    let R' := conservedToPrimitive (Grid.at_ cells 0) gamma in
    let L := R' in
    let L := if (bc =? "reflective")%string
             then Primitive.mk (Primitive.rho L) (- Primitive.u R') (Primitive.p L)
             else L in
    (L, R')
  else if (i =? nx)%Z then
    let L := conservedToPrimitive (Grid.at_ cells (nx - 1)) gamma in
    let R' := L in
    let R' := if (bc =? "reflective")%string
             then Primitive.mk (Primitive.rho R') (- Primitive.u L) (Primitive.p R')
             else R' in
    (L, R')
  else
    let L := conservedToPrimitive (Grid.at_ cells (i - 1)) gamma in
    let R' := conservedToPrimitive (Grid.at_ cells i) gamma in
    (L, R').

(** [fluxes[i]] on the local vector of [nx + 1] fluxes. *)
Definition flux_at (fluxes : list Flux.t) (i : Z) : Flux.t :=
  if (0 <=? i)%Z then default (Flux.mk 0 0 0) (fluxes !! Z.to_nat i) else Flux.mk 0 0 0.

(** The interface fluxes, the first loop of [step].  [cells] is a
    reference to the vector of the grid, read at each use. *)
Definition computeFluxes (nx : Z) (gamma : R) (bc : string) : State Grid.t (list Flux.t) :=
  mapM (fun i =>
          cells <- Grid.cells ;;
          let LR := interfaceStates cells nx i gamma bc in
          ret (computeHLLFlux (fst LR) (snd LR) gamma))%state
       (seqZ 0 (nx + 1)).

(** The updated value of cell [i], the body of the second loop of [step]. *)
Definition updatedCell (c : Cell.t) (fluxes : list Flux.t) (i : Z) (dt dx : R) : Cell.t :=
  let ratio := dt / dx in
  Cell.mk
    (Cell.rho c - ratio * (Flux.rho (flux_at fluxes (i + 1)) - Flux.rho (flux_at fluxes i)))
    (Cell.mom c - ratio * (Flux.mom (flux_at fluxes (i + 1)) - Flux.mom (flux_at fluxes i)))
    (Cell.energy c - ratio * (Flux.eng (flux_at fluxes (i + 1)) - Flux.eng (flux_at fluxes i))).

(** [void Solver::step(Grid &g, double &time, double dt, double gamma, const std::string &bc)];
    the new value of [time] is returned. *)
Definition step (time dt gamma : R) (bc : string) : State Grid.t R :=
  (nx <- Grid.size ;;
   dx <- Grid.dx ;;
   Grid.applyBoundaryConditions bc ;;
   fluxes <- computeFluxes nx gamma bc ;;
   for_ (seqZ 0 nx) (fun i =>
     cells <- Grid.cells ;;
     let c := Grid.at_ cells i in
     Grid.setCell i (updatedCell c fluxes i dt dx)) ;;
   ret (time + dt))%state.

(** The state of the driver: the grid it received by reference and the
    output produced so far (most recent event first). *)
Record World : Type := mkWorld { grid : Grid.t; trace : list Event }.

Definition onGrid {A : Type} (m : State Grid.t A) : State World A :=
  fun w => (fst (m (grid w)), mkWorld (snd (m (grid w))) (trace w)).

Definition emit (e : Grid.t -> Event) : State World unit :=
  modify (fun w => mkWorld (grid w) (e (grid w) :: trace w)).

(** The local variables of [runSimulation]. *)
Record Locals : Type := mkLocals {
  time : R;
  step_count : Z;
  snapshot_idx : Z;
  time_since_last_output : R
}.

(** One pass through the body of the [while] loop of [runSimulation]. *)
Definition loopBody (p : Params.t) (l : Locals) : State World Locals :=
  (dt <- onGrid (computeCFL (Params.cfl p) (Params.gamma p)) ;;
   let dt := if Rgt_dec (time l + dt) (Params.t_final p)
             then Params.t_final p - time l else dt in
   time' <- onGrid (step (time l) dt (Params.gamma p) (Params.bc_type p)) ;;
   let step_count' := (step_count l + 1)%Z in
   let tslo := time_since_last_output l + dt in
   if Rge_dec tslo (Params.output_dt p)
   then
     emit (fun g => Snapshot (snapshot_idx l) g time') ;;
     emit (fun _ => Progress step_count' time' dt) ;;
     ret (mkLocals time' step_count' (snapshot_idx l + 1)%Z 0.0)
   else ret (mkLocals time' step_count' (snapshot_idx l) tslo))%state.

(** [while (time < p.t_final) { ... }]: [None] when the fuel runs out
    before the loop exits. *)
Fixpoint while_ (fuel : nat) (p : Params.t) (l : Locals) : State World (option Locals) :=
  if Rlt_dec (time l) (Params.t_final p)
  then match fuel with
       | O => ret None
       | S fuel' => (l' <- loopBody p l ;; while_ fuel' p l')%state
       end
  else ret (Some l).

(** The locals at the first test of the loop. *)
Definition initialLocals : Locals := mkLocals 0.0 0%Z 1%Z 0.0.

(** [void Solver::runSimulation(Grid &g, const Params &p)] *)
Definition runSimulation (fuel : nat) (p : Params.t) : State World (option unit) :=
  (emit (fun _ => Log "Starting Simulation...") ;;
   emit (fun _ => Log (String.append "Output directory: " (Params.output_dir p))) ;;
   emit (fun g => Snapshot 0 g 0.0) ;;
   r <- while_ fuel p initialLocals ;;
   match r with
   | None => ret None
   | Some l =>
       emit (fun g => Snapshot (snapshot_idx l) g (time l)) ;;
       emit (fun _ => Log "Simulation Complete.") ;;
       ret (Some tt)
   end)%state.

End Solver.

(** ** The formulas of the specification, to compare the code with *)


(** The sound speed sqrt(gamma max(p, 1e-14) / max(rho, 1e-14)). *)
Definition soundSpeedSpec (P : Primitive.t) (gamma : R) : R :=
  sqrt (gamma * Rmax (Primitive.p P) 1e-14 / Rmax (Primitive.rho P) 1e-14).

(** The primitive state of a conserved cell with its two floors:
    rho = max(c.rho, 1e-14), u = c.mom / rho and
    p = max((gamma - 1) (c.energy - rho u^2 / 2), 1e-14). *)
Definition toPrimitiveSpec (c : Cell.t) (gamma : R) : Primitive.t :=
  let rho := Rmax (Cell.rho c) 1e-14 in
  let u := Cell.mom c / rho in
  Primitive.mk rho u (Rmax ((gamma - 1) * (Cell.energy c - / 2 * rho * u ^ 2)) 1e-14).

(** The signal speed |u| + c_s of the primitive state of a cell. *)
Definition signalSpeedSpec (c : Cell.t) (gamma : R) : R :=
  let P := toPrimitiveSpec c gamma in
  Rabs (Primitive.u P) + soundSpeedSpec P gamma.


(** The sum of one component over all cells. *)
Definition total (proj : Cell.t -> R) (cells : list Cell.t) : R :=
  foldr (fun c s => proj c + s) 0 cells.

(** ** Auxiliary definitions: named parts of the loops of the code *)

(** The running maximum of [computeCFL], as a fold over the cells. *)
Definition runningMax (gamma : R) (m : R) (c : Cell.t) : R :=
  if Rgt_dec (Solver.signal c gamma) m then Solver.signal c gamma else m.

(** The flux that [step] stores for interface [i]. *)
Definition interfaceFlux (cells : list Cell.t) (nx : Z) (gamma : R) (bc : string) (i : Z)
  : Flux.t :=
  let LR := Solver.interfaceStates cells nx i gamma bc in
  Solver.computeHLLFlux (fst LR) (snd LR) gamma.

(** The states of the driver at the test of its loop: the first one and
    those that follow a pass through the body. *)
Inductive loopReach (p : Params.t) (s : Solver.Locals * Solver.World)
  : Solver.Locals * Solver.World -> Prop :=
  | reach_start : loopReach p s s
  | reach_pass (l : Solver.Locals) (w : Solver.World) :
      loopReach p s (l, w) ->
      Solver.time l < Params.t_final p ->
      loopReach p s (Solver.loopBody p l w).

(** The time step of a pass: the CFL step, clamped at the final time. *)
Definition clampedDt (p : Params.t) (l : Solver.Locals) (w : Solver.World) : R :=
  let dt := fst (Solver.computeCFL (Params.cfl p) (Params.gamma p) (Solver.grid w)) in
  if Rgt_dec (Solver.time l + dt) (Params.t_final p)
  then Params.t_final p - Solver.time l else dt.

(** The same two statements of the loop of [runSimulation],
    [if (time + dt > p.t_final) dt = p.t_final - time;] and, in [step],
    [time += dt], on binary64 numbers with their rounding: the new time. *)
Module Binary64.
Import PrimFloat.

Definition clampedAdvance (time dt t_final : float) : float :=
  let dt := if (t_final <? time + dt)%float then (t_final - time)%float else dt in
  (time + dt)%float.

End Binary64.

(** Unfolds the accessors of the grid and the operations of the monad. *)
Ltac run_state :=
  unfold Grid.getCell, Grid.setCell, Grid.negate_mom, Grid.size, Grid.dx, Grid.cells,
    bind, gets, ret, modify;
  cbn [fst snd].

(** ** Auxiliary definitions for the further properties *)

(** The conserved state that [Grid::initialize] stores in cell [i]: the
    test on the cell centre in the body of its loop. *)
Definition initialCell (left right : Primitive.t) (interface_pos x0 dx : R) (i : Z) : Cell.t :=
  if Rlt_dec (x0 + (IZR i + 0.5) * dx) interface_pos
  then primitiveToConserved left
  else primitiveToConserved right.

(** The conserved form of a primitive state, written out:
    (rho, rho u, p / (gamma - 1) + rho u^2 / 2). *)
Definition toConservedSpec (P : Primitive.t) (gamma : R) : Cell.t :=
  Cell.mk (Primitive.rho P) (Primitive.rho P * Primitive.u P)
          (Primitive.p P / (gamma - 1) + Primitive.rho P * (Primitive.u P) ^ 2 / 2).

(** The indices of the snapshots of a trace, in the order of the trace. *)
Fixpoint snapshotIndices (tr : list Event) : list Z :=
  match tr with
  | [] => []
  | Snapshot i _ _ :: tr' => i :: snapshotIndices tr'
  | _ :: tr' => snapshotIndices tr'
  end.

(** ** utils.cpp *)

Module Utils.

(** [out << std::setw(width) << std::setfill('0') << text]: with the
    default adjustment the fill characters come first, and nothing is cut
    when [text] is longer than [width]. *)
Definition setw_fill0 (width : Z) (text : string) : string :=
  String.append
    (string_of_list_ascii (replicate (Z.to_nat width - String.length text) "0"%char))
    text.

(** [out << step] for an [int]: its decimal digits, after a minus sign when
    it is negative. *)
Definition put_int (step : Z) : string :=
  DecimalString.NilZero.string_of_int (Z.to_int step).

(** [std::string formatSnapshotName(int step, int width)] *)
Definition formatSnapshotName (step width : Z) : string :=
  String.append "snapshot_" (String.append (setw_fill0 width (put_int step)) ".csv").

(** The default argument [width = 5] of the declaration in utils.h. *)
Definition default_width : Z := 5.

(** [p.output_dir + "/" + Utils::formatSnapshotName(snapshot_idx)], the file
    name that [runSimulation] builds for a snapshot. *)
Definition snapshotFile (p : Params.t) (snapshot_idx : Z) : string :=
  String.append (String.append (Params.output_dir p) "/")
                (formatSnapshotName snapshot_idx default_width).

(** The lines of the parameter file are sequences of characters. *)
Definition text : Type := list Ascii.ascii.

(** [const char* ws = " \t\n\r\f\v";] *)
Definition ws : text :=
  [" "%char; "009"%char; "010"%char; "013"%char; "012"%char; "011"%char].

Definition is_ws (a : Ascii.ascii) : bool := existsb (Ascii.eqb a) ws.

(** [s.find(c)]: the position of the first [c], [None] for [npos]. *)
Fixpoint find (c : Ascii.ascii) (s : text) : option nat :=
  match s with
  | [] => None
  | a :: s' => if Ascii.eqb a c then Some 0%nat else option_map S (find c s')
  end.

(** [s.find_first_not_of(ws)] *)
Fixpoint find_first_not_of_ws (s : text) : option nat :=
  match s with
  | [] => None
  | a :: s' => if is_ws a then option_map S (find_first_not_of_ws s') else Some 0%nat
  end.

(** [s.find_last_not_of(ws)] *)
Fixpoint find_last_not_of_ws (s : text) : option nat :=
  match s with
  | [] => None
  | a :: s' =>
      match find_last_not_of_ws s' with
      | Some i => Some (S i)
      | None => if is_ws a then None else Some 0%nat
      end
  end.

(** The lambda [trim]: [s.erase(s.find_last_not_of(ws) + 1)], where
    [npos + 1] wraps to 0, then [s.erase(0, s.find_first_not_of(ws))], where
    a count of [npos] erases everything. *)
Definition trim (s : text) : text :=
  let s := take (match find_last_not_of_ws s with Some i => i + 1 | None => 0 end)%nat s in
  match find_first_not_of_ws s with
  | Some i => drop i s
  | None => []
  end.

(** What the loop of [parseParameterFile] does with one line once it has
    a key and a value: the chain of comparisons.  [stoi] and [stod] are the
    functions of the C++ library, [None] when they throw. *)
Definition assign (stoi : string -> option Z) (stod : string -> option R)
    (key val_str : string) (p : Params.t) : option Params.t :=
  let '(Params.mk nx x0 x1 t_final cfl gamma output_dir output_dt
          left_rho left_u left_p right_rho right_u right_p interface_position bc_type) := p in
  if (key =? "nx")%string then
    v ← stoi val_str;
    Some (Params.mk v x0 x1 t_final cfl gamma output_dir output_dt
            left_rho left_u left_p right_rho right_u right_p interface_position bc_type)
  else if (key =? "x0")%string then
    v ← stod val_str;
    Some (Params.mk nx v x1 t_final cfl gamma output_dir output_dt
            left_rho left_u left_p right_rho right_u right_p interface_position bc_type)
  else if (key =? "x1")%string then
    v ← stod val_str;
    Some (Params.mk nx x0 v t_final cfl gamma output_dir output_dt
            left_rho left_u left_p right_rho right_u right_p interface_position bc_type)
  else if (key =? "t_final")%string then
    v ← stod val_str;
    Some (Params.mk nx x0 x1 v cfl gamma output_dir output_dt
            left_rho left_u left_p right_rho right_u right_p interface_position bc_type)
  else if (key =? "cfl")%string then
    v ← stod val_str;
    Some (Params.mk nx x0 x1 t_final v gamma output_dir output_dt
            left_rho left_u left_p right_rho right_u right_p interface_position bc_type)
  else if (key =? "gamma")%string then
    v ← stod val_str;
    Some (Params.mk nx x0 x1 t_final cfl v output_dir output_dt
            left_rho left_u left_p right_rho right_u right_p interface_position bc_type)
  else if (key =? "output_dt")%string then
    v ← stod val_str;
    Some (Params.mk nx x0 x1 t_final cfl gamma output_dir v
            left_rho left_u left_p right_rho right_u right_p interface_position bc_type)
  else if (key =? "output_dir")%string then
    Some (Params.mk nx x0 x1 t_final cfl gamma val_str output_dt
            left_rho left_u left_p right_rho right_u right_p interface_position bc_type)
  else if (key =? "bc_type")%string then
    Some (Params.mk nx x0 x1 t_final cfl gamma output_dir output_dt
            left_rho left_u left_p right_rho right_u right_p interface_position val_str)
  else if (key =? "left_rho")%string then
    v ← stod val_str;
    Some (Params.mk nx x0 x1 t_final cfl gamma output_dir output_dt
            v left_u left_p right_rho right_u right_p interface_position bc_type)
  else if (key =? "left_u")%string then
    v ← stod val_str;
    Some (Params.mk nx x0 x1 t_final cfl gamma output_dir output_dt
            left_rho v left_p right_rho right_u right_p interface_position bc_type)
  else if (key =? "left_p")%string then
    v ← stod val_str;
    Some (Params.mk nx x0 x1 t_final cfl gamma output_dir output_dt
            left_rho left_u v right_rho right_u right_p interface_position bc_type)
  else if (key =? "right_rho")%string then
    v ← stod val_str;
    Some (Params.mk nx x0 x1 t_final cfl gamma output_dir output_dt
            left_rho left_u left_p v right_u right_p interface_position bc_type)
  else if (key =? "right_u")%string then
    v ← stod val_str;
    Some (Params.mk nx x0 x1 t_final cfl gamma output_dir output_dt
            left_rho left_u left_p right_rho v right_p interface_position bc_type)
  else if (key =? "right_p")%string then
    v ← stod val_str;
    Some (Params.mk nx x0 x1 t_final cfl gamma output_dir output_dt
            left_rho left_u left_p right_rho right_u v interface_position bc_type)
  else if (key =? "interface_position")%string then
    v ← stod val_str;
    Some (Params.mk nx x0 x1 t_final cfl gamma output_dir output_dt
            left_rho left_u left_p right_rho right_u right_p v bc_type)
  else Some p.

(** The body of the [while (std::getline(file, line))] loop. *)
Definition parseLine (stoi : string -> option Z) (stod : string -> option R)
    (line : text) (p : Params.t) : option Params.t :=
  let line := match find "#"%char line with
              | Some comment_pos => take comment_pos line
              | None => line
              end in
  match find "="%char line with
  | None => Some p
  | Some equal_pos =>
      let key := take equal_pos line in
      let val_str := drop (equal_pos + 1) line in
      let key := trim key in
      let val_str := trim val_str in
      assign stoi stod (string_of_list_ascii key) (string_of_list_ascii val_str) p
  end.

(** The defaults that [parseParameterFile] sets first. *)
Definition defaults : Params.t :=
  Params.mk 100 0.0 1.0 0.2 0.8 1.4 "data/outputs" 0.01
            1.0 0.0 1.0 0.125 0.0 0.1 0.5 "outflow".

(** [Params parseParameterFile(const std::string &path)].  [file] is what
    is found at [path]: [None] when the file cannot be opened, else its
    lines.  The result is [None] when [stoi] or [stod] throws; the warning
    on [std::cerr] is left out. *)
Definition parseParameterFile (stoi : string -> option Z) (stod : string -> option R)
    (file : option (list text)) : option Params.t :=
  match file with
  | None => Some defaults
  | Some lines =>
      fold_left (fun r line => p ← r; parseLine stoi stod line p) lines (Some defaults)
  end.

End Utils.

(** A text with no whitespace at either end. *)
Definition trimmed (k : Utils.text) : Prop :=
  (forall a, head k = Some a -> Utils.is_ws a = false) /\
  (forall a, last k = Some a -> Utils.is_ws a = false).

(** A text made of whitespace only. *)
Definition blank (w : Utils.text) : Prop :=
  Forall (fun a => Utils.is_ws a = true) w.

(** The keys that the chain of comparisons of [parseParameterFile] knows. *)
Definition knownKeys : list string :=
  ["nx"; "x0"; "x1"; "t_final"; "cfl"; "gamma"; "output_dt"; "output_dir"; "bc_type";
   "left_rho"; "left_u"; "left_p"; "right_rho"; "right_u"; "right_p";
   "interface_position"]%string.

(** What may follow the assignment on a line: nothing, or a comment. *)
Definition commentTail (comment : option Utils.text) : Utils.text :=
  match comment with
  | Some c => "#"%char :: c
  | None => []
  end.

(** A line that assigns nothing: the text before its comment holds no
    [=], or the key before its first [=] is not a known key. *)
Definition inert (l : Utils.text) : Prop :=
  (exists x comment,
     l = x ++ commentTail comment /\ ("#"%char ∉ x) /\ ("="%char ∉ x)) \/
  (exists K V comment,
     l = K ++ "="%char :: V ++ commentTail comment /\
     ("#"%char ∉ K) /\ ("="%char ∉ K) /\ ("#"%char ∉ V) /\
     (string_of_list_ascii (Utils.trim K) ∉ knownKeys)).

(** Decides that a character is not in an explicit text. *)
Ltac not_in_text :=
  let H := fresh in
  intros H; repeat (apply elem_of_cons in H as [H|H]; [discriminate|]);
  now apply elem_of_nil in H.

(** The mirror image of a state and of a flux under x -> -x: velocities,
    and with them the fluxes of mass and energy, change sign. *)
Definition mirrorState (P : Primitive.t) : Primitive.t :=
  Primitive.mk (Primitive.rho P) (- Primitive.u P) (Primitive.p P).

Definition mirrorFlux (F : Flux.t) : Flux.t :=
  Flux.mk (- Flux.rho F) (Flux.mom F) (- Flux.eng F).

(** * Properties *)

(** ** <algorithm>, <cmath> *)

Lemma Std_max_Rmax (a b : R) : Std.max a b = Rmax a b.
Proof.
  unfold Std.max, Rmax.
  destruct (Rlt_dec a b), (Rle_dec a b); lra.
Qed.

Lemma Std_min_Rmin (a b : R) : Std.min a b = Rmin a b.
Proof.
  unfold Std.min, Rmin.
  destruct (Rlt_dec b a), (Rle_dec a b); lra.
Qed.

Lemma Std_max_ge_l (a b : R) : a <= Std.max a b.
Proof. rewrite Std_max_Rmax. apply Rmax_l. Qed.

Lemma Std_max_ge_r (a b : R) : b <= Std.max a b.
Proof. rewrite Std_max_Rmax. apply Rmax_r. Qed.

Lemma Std_min_le_l (a b : R) : Std.min a b <= a.
Proof. rewrite Std_min_Rmin. apply Rmin_l. Qed.

Lemma Std_min_le_r (a b : R) : Std.min a b <= b.
Proof. rewrite Std_min_Rmin. apply Rmin_r. Qed.

Lemma floor_if_Rmax (x : R) : (if Rle_dec x 1e-14 then 1e-14 else x) = Rmax x 1e-14.
Proof. unfold Rmax. destruct (Rle_dec x 1e-14); lra. Qed.

(** ** The variable transform *)

Lemma soundSpeed_spec (P : Primitive.t) (gamma : R) :
  Solver.soundSpeed P gamma = soundSpeedSpec P gamma.
Proof.
  unfold Solver.soundSpeed, soundSpeedSpec, Std.sqrt.
  now rewrite !Std_max_Rmax.
Qed.

Lemma soundSpeed_nonneg (P : Primitive.t) (gamma : R) : 0 <= Solver.soundSpeed P gamma.
Proof. apply sqrt_pos. Qed.

Lemma soundSpeed_pos (P : Primitive.t) (gamma : R) :
  0 < gamma -> 0 < Solver.soundSpeed P gamma.
Proof.
  intros Hg. unfold Solver.soundSpeed, Std.sqrt.
  apply sqrt_lt_R0.
  pose proof (Std_max_ge_r (Primitive.p P) 1e-14).
  pose proof (Std_max_ge_r (Primitive.rho P) 1e-14).
  apply Rdiv_lt_0_compat; [apply Rmult_lt_0_compat|]; lra.
Qed.

Lemma grid_helper_is_solver_at_GAMMA (c : Cell.t) :
  conservedToPrimitive c = Solver.conservedToPrimitive c GAMMA.
Proof.
  unfold conservedToPrimitive, Solver.conservedToPrimitive.
  now rewrite !floor_if_Rmax, !Std_max_Rmax.
Qed.

(** C3.  For every conserved cell and every gamma, [toPrimitive] returns
    rho = max(c.rho, 1e-14), u = c.mom / rho and
    p = max((gamma - 1) (c.energy - rho u^2 / 2), 1e-14); so the density and
    the pressure it returns are at least 1e-14, hence positive and nonzero.
    The helper of grid.cpp is the same function at gamma = GAMMA. *)
Theorem conservedToPrimitive_floors (c : Cell.t) (gamma : R) :
  let P := Solver.conservedToPrimitive c gamma in
  (Primitive.rho P = Rmax (Cell.rho c) 1e-14 /\
   Primitive.u P = Cell.mom c / Primitive.rho P /\
   Primitive.p P =
     Rmax ((gamma - 1) * (Cell.energy c - / 2 * Primitive.rho P * (Primitive.u P) ^ 2)) 1e-14) /\
  (1e-14 <= Primitive.rho P /\ 1e-14 <= Primitive.p P) /\
  (Primitive.rho P <> 0 /\ 0 < Primitive.p P) /\
  conservedToPrimitive c = Solver.conservedToPrimitive c GAMMA.
Proof.
  intros P.
  assert (Hrho : Primitive.rho P = Rmax (Cell.rho c) 1e-14)
    by (subst P; cbn; apply Std_max_Rmax).
  assert (Hu : Primitive.u P = Cell.mom c / Primitive.rho P) by reflexivity.
  assert (Hp : Primitive.p P =
               Rmax ((gamma - 1) * (Cell.energy c - / 2 * Primitive.rho P * (Primitive.u P) ^ 2)) 1e-14).
  { subst P. cbn. rewrite !Std_max_Rmax. f_equal. lra. }
  assert (Hrho_ge : 1e-14 <= Primitive.rho P) by (rewrite Hrho; apply Rmax_r).
  assert (Hp_ge : 1e-14 <= Primitive.p P) by (rewrite Hp; apply Rmax_r).
  split; [|split; [|split]].
  - auto.
  - auto.
  - split; lra.
  - apply grid_helper_is_solver_at_GAMMA.
Qed.

(** C4, as stated, fails: a positive density below the floor 1e-14 is raised
    to the floor on the way back, and the velocity changes with it (here from
    1 to 0.1). *)
Lemma roundtrip_below_floor_counterexample :
  let P := Primitive.mk 1e-15 1 1 in
  let gamma := 1.4 in
  (0 < Primitive.rho P /\ 0 < Primitive.p P /\ 1 < gamma <= 2) /\
  Solver.conservedToPrimitive (Solver.primitiveToConserved P gamma) gamma <> P /\
  Primitive.u (Solver.conservedToPrimitive (Solver.primitiveToConserved P gamma) gamma) = 0.1.
Proof.
  cbn zeta.
  assert (Hu : Primitive.u (Solver.conservedToPrimitive
                              (Solver.primitiveToConserved (Primitive.mk 1e-15 1 1) 1.4) 1.4) = 0.1).
  { unfold Solver.conservedToPrimitive, Solver.primitiveToConserved.
    cbn [Cell.rho Cell.mom Cell.energy Primitive.rho Primitive.u Primitive.p].
    rewrite Std_max_Rmax, Rmax_right by lra. lra. }
  split; [cbn [Primitive.rho Primitive.p]; lra|]. split; [|exact Hu].
  intros Heq. rewrite Heq in Hu. cbn [Primitive.u] in Hu. lra.
Qed.

(** C4, amended.  For every primitive state with rho >= 1e-14 and
    p >= 1e-14 and every gamma in (1, 2], the round trip through the
    conserved variables gives the state back (exactly, in real arithmetic). *)
Theorem roundtrip_above_floor (P : Primitive.t) (gamma : R) :
  1e-14 <= Primitive.rho P -> 1e-14 <= Primitive.p P -> 1 < gamma <= 2 ->
  Solver.conservedToPrimitive (Solver.primitiveToConserved P gamma) gamma = P.
Proof.
  destruct P as [rho u p]. cbn [Primitive.rho Primitive.u Primitive.p].
  intros Hrho Hp Hg.
  unfold Solver.conservedToPrimitive, Solver.primitiveToConserved.
  cbn [Cell.rho Cell.mom Cell.energy Primitive.rho Primitive.u Primitive.p].
  rewrite (Std_max_Rmax rho), (Rmax_left rho) by lra.
  replace (rho * u / rho) with u by (field; lra).
  replace ((gamma - 1.0) * (p / (gamma - 1.0) + 0.5 * rho * u * u - 0.5 * rho * u * u))
    with p by (field; lra).
  rewrite Std_max_Rmax, Rmax_left by lra.
  reflexivity.
Qed.

Lemma roundtrip_above_floor_witness :
  let P := Primitive.mk 1 0 1 in
  (1e-14 <= Primitive.rho P /\ 1e-14 <= Primitive.p P /\ 1 < 1.4 <= 2) /\
  Solver.conservedToPrimitive (Solver.primitiveToConserved P 1.4) 1.4 = P.
Proof.
  cbn zeta. cbn [Primitive.rho Primitive.p].
  split; [lra|].
  apply (roundtrip_above_floor (Primitive.mk 1 0 1) 1.4);
    cbn [Primitive.rho Primitive.p]; lra.
Defined.

(** ** The HLL flux *)






(** C10.  For every pair of states and every gamma > 0 the sound speeds are
    positive and the spread of the wave-speed estimates is at least their
    sum: SR - SL >= aL + aR > 0.  So the divisor of the subsonic branch is
    not zero and [denom] is its inverse. *)
Theorem wave_spread_positive (L R' : Primitive.t) (gamma : R) :
  0 < gamma ->
  let aL := Solver.soundSpeed L gamma in
  let aR := Solver.soundSpeed R' gamma in
  let SL := Solver.waveSL L R' gamma in
  let SR := Solver.waveSR L R' gamma in
  (0 < aL /\ 0 < aR) /\
  (SR - SL >= aL + aR /\ aL + aR > 0) /\
  SR - SL <> 0 /\
  (SR - SL) * (1.0 / (SR - SL)) = 1.
Proof.
  intros Hg aL aR SL SR.
  assert (HaL : 0 < aL) by (apply soundSpeed_pos; exact Hg).
  assert (HaR : 0 < aR) by (apply soundSpeed_pos; exact Hg).
  assert (H1 : SL <= Primitive.u L - aL) by apply Std_min_le_l.
  assert (H2 : SL <= Primitive.u R' - aR) by apply Std_min_le_r.
  assert (H3 : Primitive.u L + aL <= SR) by apply Std_max_ge_l.
  assert (H4 : Primitive.u R' + aR <= SR) by apply Std_max_ge_r.
  split; [split; assumption|].
  split; [split; lra|].
  split; [lra|].
  replace (1.0 / (SR - SL)) with (/ (SR - SL)) by (unfold Rdiv; lra).
  apply Rinv_r. lra.
Qed.

Lemma wave_spread_positive_witness :
  let L := Primitive.mk 1.0 0.0 1.0 in
  let R' := Primitive.mk 0.125 0.0 0.1 in
  0 < 1.4 /\
  Solver.waveSR L R' 1.4 - Solver.waveSL L R' 1.4 <> 0.
Proof.
  cbn zeta. split; [lra|].
  apply (wave_spread_positive (Primitive.mk 1.0 0.0 1.0) (Primitive.mk 0.125 0.0 0.1) 1.4).
  lra.
Defined.

(** ** The three branches of the flux on concrete states *)

Lemma soundSpeed_unit_state (u : R) :
  Solver.soundSpeed (Primitive.mk 1 u 1) 1.4 = sqrt 1.4.
Proof.
  unfold Solver.soundSpeed, Std.sqrt. cbn [Primitive.rho Primitive.p].
  rewrite !Std_max_Rmax, !Rmax_left by lra.
  f_equal. lra.
Qed.

Lemma sqrt_1_4_bounds : 1 < sqrt 1.4 < 2.
Proof.
  split.
  - rewrite <- sqrt_1 at 1. apply sqrt_lt_1_alt. lra.
  - replace 2 with (sqrt 4).
    + apply sqrt_lt_1_alt. lra.
    + replace 4 with (2 * 2) by lra. apply sqrt_square. lra.
Qed.

Example hll_supersonic_right :
  let P := Primitive.mk 1 3 1 in
  Solver.waveSL P P 1.4 >= 0 /\
  Solver.computeHLLFlux P P 1.4 = Flux.mk 3 10 24.
Proof.
  cbn zeta. pose proof sqrt_1_4_bounds as Hs.
  assert (HSL : Solver.waveSL (Primitive.mk 1 3 1) (Primitive.mk 1 3 1) 1.4 = 3 - sqrt 1.4).
  { unfold Solver.waveSL. rewrite soundSpeed_unit_state. cbn [Primitive.u].
    rewrite Std_min_Rmin. apply Rmin_left. lra. }
  split; [rewrite HSL; lra|].
  unfold Solver.computeHLLFlux. rewrite HSL.
  destruct (Rge_dec (3 - sqrt 1.4) 0.0); [|lra].
  unfold Solver.primitiveToConserved. cbn [Cell.mom Cell.energy Primitive.rho Primitive.u Primitive.p].
  f_equal; lra.
Qed.

Example hll_supersonic_left :
  let P := Primitive.mk 1 (-3) 1 in
  Solver.waveSL P P 1.4 < 0 /\ Solver.waveSR P P 1.4 <= 0 /\
  Solver.computeHLLFlux P P 1.4 = Flux.mk (-3) 10 (-24).
Proof.
  cbn zeta. pose proof sqrt_1_4_bounds as Hs.
  assert (HSL : Solver.waveSL (Primitive.mk 1 (-3) 1) (Primitive.mk 1 (-3) 1) 1.4
                = -3 - sqrt 1.4).
  { unfold Solver.waveSL. rewrite soundSpeed_unit_state. cbn [Primitive.u].
    rewrite Std_min_Rmin. apply Rmin_left. lra. }
  assert (HSR : Solver.waveSR (Primitive.mk 1 (-3) 1) (Primitive.mk 1 (-3) 1) 1.4
                = -3 + sqrt 1.4).
  { unfold Solver.waveSR. rewrite soundSpeed_unit_state. cbn [Primitive.u].
    rewrite Std_max_Rmax. apply Rmax_left. lra. }
  split; [rewrite HSL; lra|]. split; [rewrite HSR; lra|].
  unfold Solver.computeHLLFlux. rewrite HSL, HSR.
  destruct (Rge_dec (-3 - sqrt 1.4) 0.0); [lra|].
  destruct (Rle_dec (-3 + sqrt 1.4) 0.0); [|lra].
  unfold Solver.primitiveToConserved. cbn [Cell.mom Cell.energy Primitive.rho Primitive.u Primitive.p].
  f_equal; lra.
Qed.

Example hll_subsonic_at_rest :
  let P := Primitive.mk 1 0 1 in
  Solver.waveSL P P 1.4 < 0 /\ Solver.waveSR P P 1.4 > 0 /\
  Solver.computeHLLFlux P P 1.4 = Flux.mk 0 1 0.
Proof.
  cbn zeta. pose proof sqrt_1_4_bounds as Hs.
  assert (HSL : Solver.waveSL (Primitive.mk 1 0 1) (Primitive.mk 1 0 1) 1.4 = 0 - sqrt 1.4).
  { unfold Solver.waveSL. rewrite soundSpeed_unit_state. cbn [Primitive.u].
    rewrite Std_min_Rmin. apply Rmin_left. lra. }
  assert (HSR : Solver.waveSR (Primitive.mk 1 0 1) (Primitive.mk 1 0 1) 1.4 = 0 + sqrt 1.4).
  { unfold Solver.waveSR. rewrite soundSpeed_unit_state. cbn [Primitive.u].
    rewrite Std_max_Rmax. apply Rmax_left. lra. }
  split; [rewrite HSL; lra|]. split; [rewrite HSR; lra|].
  unfold Solver.computeHLLFlux. rewrite HSL, HSR.
  destruct (Rge_dec (0 - sqrt 1.4) 0.0); [lra|].
  destruct (Rle_dec (0 + sqrt 1.4) 0.0); [lra|].
  unfold Solver.primitiveToConserved. cbn [Cell.rho Cell.mom Cell.energy Flux.rho Flux.mom Flux.eng Primitive.rho Primitive.u Primitive.p].
  replace (1.0 / (0 + sqrt 1.4 - (0 - sqrt 1.4))) with (/ (2 * sqrt 1.4))
    by (unfold Rdiv; replace 1.0 with 1 by lra; rewrite Rmult_1_l; f_equal; lra).
  f_equal; field; lra.
Qed.

(** ** The grid *)

Lemma at_lookup (cs : list Cell.t) (i : Z) (c : Cell.t) :
  (0 <= i)%Z -> cs !! Z.to_nat i = Some c -> Grid.at_ cs i = c.
Proof.
  intros Hi Hc. unfold Grid.at_.
  destruct (Z.leb_spec 0 i); [|lia]. now rewrite Hc.
Qed.

Lemma at_in_range (cs : list Cell.t) (i : Z) :
  (0 <= i < Z.of_nat (length cs))%Z -> cs !! Z.to_nat i = Some (Grid.at_ cs i).
Proof.
  intros Hi.
  destruct (lookup_lt_is_Some_2 cs (Z.to_nat i)) as [c Hc]; [lia|].
  rewrite Hc. f_equal. symmetry. apply at_lookup; [lia|exact Hc].
Qed.

Lemma at_insert_eq (cs : list Cell.t) (i : Z) (c : Cell.t) :
  (0 <= i < Z.of_nat (length cs))%Z -> Grid.at_ (<[Z.to_nat i := c]> cs) i = c.
Proof.
  intros Hi. apply at_lookup; [lia|].
  apply list_lookup_insert_eq. lia.
Qed.

Lemma at_insert_ne (cs : list Cell.t) (i j : Z) (c : Cell.t) :
  (0 <= i)%Z -> (0 <= j)%Z -> i <> j ->
  Grid.at_ (<[Z.to_nat i := c]> cs) j = Grid.at_ cs j.
Proof.
  intros Hi Hj Hne. unfold Grid.at_.
  rewrite list_lookup_insert_ne by lia. reflexivity.
Qed.

Lemma in_range_true (i nx : Z) :
  (0 <= i < nx)%Z -> (0 <=? i)%Z && (i <? nx)%Z = true.
Proof. intros Hi. apply andb_true_iff. split; [apply Z.leb_le|apply Z.ltb_lt]; lia. Qed.

Lemma in_range_false (i nx : Z) :
  (i < 0 \/ nx <= i)%Z -> (0 <=? i)%Z && (i <? nx)%Z = false.
Proof.
  intros Hi. apply andb_false_iff.
  destruct Hi; [left; apply Z.leb_gt|right; apply Z.ltb_ge]; lia.
Qed.

(** C8.  For an index outside [0, N), [getCell] returns a cell whose three
    components are zero and [setCell] leaves the grid as it is; for an index
    inside, [getCell] returns cell i and changes nothing, and [setCell]
    writes cell i and nothing else. *)
Theorem cell_access_bounds (g : Grid.t) (i : Z) (v : Cell.t) :
  ((i < 0 \/ Grid.nx_ g <= i)%Z ->
     (let c := fst (Grid.getCell i g) in
      Cell.rho c = 0 /\ Cell.mom c = 0 /\ Cell.energy c = 0) /\
     snd (Grid.getCell i g) = g /\
     Grid.setCell i v g = (tt, g)) /\
  (Grid.wf g -> (0 <= i < Grid.nx_ g)%Z ->
     (Grid.cells_ g !! Z.to_nat i = Some (fst (Grid.getCell i g)) /\
      snd (Grid.getCell i g) = g) /\
     (let g' := snd (Grid.setCell i v g) in
      Grid.cells_ g' !! Z.to_nat i = Some v /\
      (forall j : nat, j <> Z.to_nat i -> Grid.cells_ g' !! j = Grid.cells_ g !! j) /\
      length (Grid.cells_ g') = length (Grid.cells_ g) /\
      Grid.nx_ g' = Grid.nx_ g /\ Grid.x0_ g' = Grid.x0_ g /\
      Grid.x1_ g' = Grid.x1_ g /\ Grid.dx_ g' = Grid.dx_ g)).
Proof.
  split.
  - intros Hout. run_state. rewrite in_range_false by exact Hout.
    cbn [fst snd Cell.rho Cell.mom Cell.energy].
    repeat split; lra.
  - intros [Hpos Hlen] Hin. run_state. rewrite in_range_true by exact Hin.
    cbn [fst snd Grid.set_cells Grid.cells_ Grid.nx_ Grid.x0_ Grid.x1_ Grid.dx_].
    split; [split; [apply at_in_range; lia|reflexivity]|].
    split; [apply list_lookup_insert_eq; lia|].
    split; [intros j Hj; apply list_lookup_insert_ne; congruence|].
    split; [apply length_insert|].
    repeat split.
Qed.

Lemma cell_access_bounds_witness :
  let g := Grid.mk 2 0 1 0.5 [Cell.mk 1 0 2.5; Cell.mk 0.125 0 0.25] in
  let v := Cell.mk 3 4 5 in
  Grid.setCell 2 v g = (tt, g) /\
  (Grid.wf g /\ (0 <= 1 < Grid.nx_ g)%Z /\
   Grid.cells_ (snd (Grid.setCell 1 v g)) !! Z.to_nat 1 = Some v).
Proof.
  cbn zeta.
  split.
  - apply (cell_access_bounds (Grid.mk 2 0 1 0.5 [Cell.mk 1 0 2.5; Cell.mk 0.125 0 0.25]) 2
             (Cell.mk 3 4 5)).
    cbn [Grid.nx_]. lia.
  - assert (Hwf : Grid.wf (Grid.mk 2 0 1 0.5 [Cell.mk 1 0 2.5; Cell.mk 0.125 0 0.25]))
      by (split; cbn; lia).
    split; [exact Hwf|]. split; [cbn [Grid.nx_]; lia|].
    apply (cell_access_bounds (Grid.mk 2 0 1 0.5 [Cell.mk 1 0 2.5; Cell.mk 0.125 0 0.25]) 1
             (Cell.mk 3 4 5)); [exact Hwf|cbn [Grid.nx_]; lia].
Defined.

Lemma applyBoundaryConditions_small (g : Grid.t) (bc : string) :
  (Grid.nx_ g < 2)%Z -> Grid.applyBoundaryConditions bc g = (tt, g).
Proof.
  intros Hn. unfold Grid.applyBoundaryConditions. run_state.
  destruct (Z.ltb_spec (Grid.nx_ g) 2); [reflexivity|lia].
Qed.

Lemma applyBoundaryConditions_other (g : Grid.t) (bc : string) :
  bc <> "reflective"%string -> Grid.applyBoundaryConditions bc g = (tt, g).
Proof.
  intros Hbc. unfold Grid.applyBoundaryConditions. run_state.
  destruct (Grid.nx_ g <? 2)%Z; [reflexivity|].
  destruct ((bc =? "outflow")%string || (bc =? "transmissive")%string); [reflexivity|].
  destruct (String.eqb_spec bc "reflective"); [contradiction|reflexivity].
Qed.

Lemma applyBoundaryConditions_reflective (g : Grid.t) :
  (2 <= Grid.nx_ g)%Z ->
  Grid.applyBoundaryConditions "reflective" g =
  (tt, snd (Grid.negate_mom (Grid.nx_ g - 1) (snd (Grid.negate_mom 0 g)))).
Proof.
  intros Hn. unfold Grid.applyBoundaryConditions. run_state.
  destruct (Z.ltb_spec (Grid.nx_ g) 2); [lia|].
  reflexivity.
Qed.

(** C7, as stated, fails on a grid of one cell: the method returns at once
    when [nx_ < 2], so under [reflective] the momentum of cell 0 (which is
    also cell N - 1) is left as it is, not negated. *)
Lemma reflective_one_cell_counterexample :
  let g := Grid.mk 1 0 1 1 [Cell.mk 1 1 2.5] in
  let g' := snd (Grid.applyBoundaryConditions "reflective" g) in
  Grid.wf g /\
  Cell.mom (Grid.at_ (Grid.cells_ g') 0) = 1 /\
  Cell.mom (Grid.at_ (Grid.cells_ g') 0) <> - Cell.mom (Grid.at_ (Grid.cells_ g) 0).
Proof.
  cbn zeta. rewrite applyBoundaryConditions_small by (cbn [Grid.nx_]; lia).
  cbn [snd Grid.cells_].
  assert (H0 : Grid.at_ [Cell.mk 1 1 2.5] 0 = Cell.mk 1 1 2.5) by reflexivity.
  rewrite H0. cbn [Cell.mom].
  split; [split; cbn; lia|]. split; lra.
Qed.

(** C7, amended.  [applyBoundaryConditions] changes nothing but the
    momentum of cell 0 and of cell N - 1: the geometry, the number of cells,
    every density and energy and every other cell are kept.  It changes
    nothing at all when the kind is not [reflective] (so for [outflow],
    [transmissive] and any unrecognized kind) and when the grid has fewer than
    two cells.  For [reflective] on a grid of at least two cells it negates
    the momentum of cell 0 and of cell N - 1. *)
Theorem applyBoundaryConditions_effect (g : Grid.t) (bc : string) :
  Grid.wf g ->
  let g' := snd (Grid.applyBoundaryConditions bc g) in
  let N := Grid.nx_ g in
  (Grid.nx_ g' = N /\ Grid.x0_ g' = Grid.x0_ g /\ Grid.x1_ g' = Grid.x1_ g /\
   Grid.dx_ g' = Grid.dx_ g /\ length (Grid.cells_ g') = length (Grid.cells_ g)) /\
  (forall j : Z, (0 <= j < N)%Z ->
     Cell.rho (Grid.at_ (Grid.cells_ g') j) = Cell.rho (Grid.at_ (Grid.cells_ g) j) /\
     Cell.energy (Grid.at_ (Grid.cells_ g') j) = Cell.energy (Grid.at_ (Grid.cells_ g) j) /\
     (j <> 0%Z -> j <> (N - 1)%Z ->
      Grid.at_ (Grid.cells_ g') j = Grid.at_ (Grid.cells_ g) j)) /\
  (bc <> "reflective"%string \/ (N < 2)%Z -> g' = g) /\
  (bc = "reflective"%string -> (2 <= N)%Z ->
     Cell.mom (Grid.at_ (Grid.cells_ g') 0) = - Cell.mom (Grid.at_ (Grid.cells_ g) 0) /\
     Cell.mom (Grid.at_ (Grid.cells_ g') (N - 1)) =
       - Cell.mom (Grid.at_ (Grid.cells_ g) (N - 1))).
Proof.
  intros [Hpos Hlen] g' N.
  assert (Hsame : bc <> "reflective"%string \/ (N < 2)%Z -> g' = g).
  { intros [Hbc|Hn]; subst g'.
    - now rewrite applyBoundaryConditions_other.
    - now rewrite applyBoundaryConditions_small. }
  destruct (String.eqb_spec bc "reflective") as [->|Hbc].
  2:{ rewrite (Hsame (or_introl Hbc)).
      split; [repeat split|]. split; [intros j Hj; repeat split|].
      split; [reflexivity|]. intros Hc; contradiction. }
  destruct (Z.lt_ge_cases N 2) as [Hn|Hn].
  { rewrite (Hsame (or_intror Hn)).
    split; [repeat split|]. split; [intros j Hj; repeat split|].
    split; [reflexivity|]. intros _ Hc; lia. }
  clear Hsame. subst g'. rewrite applyBoundaryConditions_reflective by exact Hn.
  fold N. run_state.
  cbn [Grid.set_cells Grid.cells_ Grid.nx_ Grid.x0_ Grid.x1_ Grid.dx_].
  set (cs := Grid.cells_ g) in *.
  set (c0 := Cell.mk (Cell.rho (Grid.at_ cs 0)) (- Cell.mom (Grid.at_ cs 0))
                     (Cell.energy (Grid.at_ cs 0))).
  set (cs1 := <[Z.to_nat 0 := c0]> cs).
  assert (Hlen1 : length cs1 = length cs) by apply length_insert.
  assert (Hlast : Grid.at_ cs1 (N - 1) = Grid.at_ cs (N - 1)).
  { subst cs1. apply at_insert_ne; lia. }
  rewrite Hlast.
  set (cN := Cell.mk _ _ _).
  assert (Hat0 : Grid.at_ (<[Z.to_nat (N - 1) := cN]> cs1) 0 = c0).
  { rewrite at_insert_ne by lia. subst cs1. apply at_insert_eq. lia. }
  assert (HatN : Grid.at_ (<[Z.to_nat (N - 1) := cN]> cs1) (N - 1) = cN).
  { apply at_insert_eq. lia. }
  split; [rewrite length_insert; repeat split; exact Hlen1|].
  split.
  - intros j Hj.
    destruct (Z.eq_dec j 0%Z) as [->|Hj0]; [rewrite Hat0; repeat split; contradiction|].
    destruct (Z.eq_dec j (N - 1)%Z) as [->|HjN]; [rewrite HatN; repeat split; contradiction|].
    assert (Hjj : Grid.at_ (<[Z.to_nat (N - 1) := cN]> cs1) j = Grid.at_ cs j).
    { rewrite at_insert_ne by lia. subst cs1. apply at_insert_ne; lia. }
    rewrite Hjj. repeat split.
  - split; [intros [Hc|Hc]; [contradiction|lia]|].
    intros _ _. rewrite Hat0, HatN. split; reflexivity.
Qed.

Lemma applyBoundaryConditions_effect_witness :
  let g := Grid.mk 2 0 1 0.5 [Cell.mk 1 3 2.5; Cell.mk 0.125 4 0.25] in
  let g' := snd (Grid.applyBoundaryConditions "reflective" g) in
  Grid.wf g /\
  Cell.mom (Grid.at_ (Grid.cells_ g') 0) = - Cell.mom (Grid.at_ (Grid.cells_ g) 0) /\
  Cell.mom (Grid.at_ (Grid.cells_ g') (2 - 1)) = - Cell.mom (Grid.at_ (Grid.cells_ g) (2 - 1)).
Proof.
  cbn zeta.
  assert (Hwf : Grid.wf (Grid.mk 2 0 1 0.5 [Cell.mk 1 3 2.5; Cell.mk 0.125 4 0.25]))
    by (split; cbn; lia).
  split; [exact Hwf|].
  apply (applyBoundaryConditions_effect
           (Grid.mk 2 0 1 0.5 [Cell.mk 1 3 2.5; Cell.mk 0.125 4 0.25]) "reflective" Hwf);
    [reflexivity|cbn [Grid.nx_]; lia].
Defined.

(** ** The time-step controller *)

Lemma seqZ_succ (m : Z) (n : nat) :
  seqZ m (Z.of_nat (S n)) = m :: seqZ (Z.succ m) (Z.of_nat n).
Proof.
  rewrite seqZ_cons by lia. do 2 f_equal. lia.
Qed.

Lemma at_middle (pre suf : list Cell.t) (c : Cell.t) :
  Grid.at_ (pre ++ c :: suf) (Z.of_nat (length pre)) = c.
Proof.
  apply at_lookup; [lia|].
  rewrite Nat2Z.id. apply list_lookup_middle. reflexivity.
Qed.

Lemma succ_length_snoc (pre : list Cell.t) (c : Cell.t) :
  Z.succ (Z.of_nat (length pre)) = Z.of_nat (length (pre ++ [c])).
Proof. rewrite length_app. cbn. lia. Qed.

(** A loop over the indices of a vector that reads [v[i]] is a fold over
    the vector. *)
Lemma fold_left_at {A : Type} (f : A -> Cell.t -> A) (suf pre : list Cell.t) (a : A) :
  fold_left (fun acc i => f acc (Grid.at_ (pre ++ suf) i))
            (seqZ (Z.of_nat (length pre)) (Z.of_nat (length suf))) a
  = fold_left f suf a.
Proof.
  revert pre a. induction suf as [|c suf IH]; intros pre a.
  - reflexivity.
  - cbn [length]. rewrite seqZ_succ. cbn [fold_left].
    rewrite at_middle, (succ_length_snoc pre c).
    rewrite (cons_middle c pre suf), app_assoc.
    apply IH.
Qed.

Lemma signal_nonneg (c : Cell.t) (gamma : R) : 0 <= Solver.signal c gamma.
Proof.
  unfold Solver.signal, Std.abs.
  pose proof (Rabs_pos (Primitive.u (Solver.conservedToPrimitive c gamma))).
  pose proof (soundSpeed_nonneg (Solver.conservedToPrimitive c gamma) gamma).
  lra.
Qed.

Lemma runningMax_bounds (gamma : R) (cs : list Cell.t) (m0 : R) :
  let m := fold_left (runningMax gamma) cs m0 in
  m0 <= m /\
  (forall c, c ∈ cs -> Solver.signal c gamma <= m) /\
  (m = m0 \/ exists c, c ∈ cs /\ m = Solver.signal c gamma).
Proof.
  revert m0. induction cs as [|c cs IH]; intros m0; cbn [fold_left].
  - split; [lra|]. split; [|now left].
    intros c Hc. now apply elem_of_nil in Hc.
  - destruct (IH (runningMax gamma m0 c)) as (Hge & Hall & Hex).
    assert (Hstep : m0 <= runningMax gamma m0 c /\ Solver.signal c gamma <= runningMax gamma m0 c).
    { unfold runningMax. destruct (Rgt_dec (Solver.signal c gamma) m0); lra. }
    split; [lra|]. split.
    + intros c' Hc'. apply elem_of_cons in Hc' as [->|Hc']; [lra|auto].
    + destruct Hex as [Heq|(c' & Hc' & Heq)].
      * rewrite Heq. unfold runningMax.
        destruct (Rgt_dec (Solver.signal c gamma) m0); [right|now left].
        exists c. split; [apply elem_of_cons; now left|reflexivity].
      * right. exists c'. split; [apply elem_of_cons; now right|exact Heq].
Qed.

Lemma conservedToPrimitive_spec (c : Cell.t) (gamma : R) :
  Solver.conservedToPrimitive c gamma = toPrimitiveSpec c gamma.
Proof.
  unfold Solver.conservedToPrimitive, toPrimitiveSpec.
  rewrite !Std_max_Rmax. f_equal. f_equal. lra.
Qed.

(** The signal of a cell in the loop of [computeCFL] is |u| + c_s, with the
    sound speed and the primitive state written out. *)
Lemma signal_spec (c : Cell.t) (gamma : R) :
  Solver.signal c gamma = signalSpeedSpec c gamma.
Proof.
  unfold Solver.signal, signalSpeedSpec, Std.abs.
  now rewrite soundSpeed_spec, conservedToPrimitive_spec.
Qed.

Lemma computeCFL_run (g : Grid.t) (cfl gamma : R) :
  Grid.wf g ->
  let m := fold_left (runningMax gamma) (Grid.cells_ g) 0.0 in
  fst (Solver.computeCFL cfl gamma g) =
  cfl * Grid.dx_ g / (if Rlt_dec m 1e-9 then 1e-9 else m).
Proof.
  intros [Hpos Hlen] m.
  unfold Solver.computeCFL. run_state.
  rewrite <- Hlen.
  pose proof (fold_left_at (runningMax gamma) (Grid.cells_ g) [] 0.0) as Hfold.
  cbn [length app] in Hfold. change (Z.of_nat 0) with 0%Z in Hfold.
  unfold runningMax in Hfold at 1.
  rewrite Hfold. reflexivity.
Qed.

Lemma floor_lt_Rmax (x y : R) : (if Rlt_dec x y then y else x) = Rmax x y.
Proof. unfold Rmax. destruct (Rlt_dec x y), (Rle_dec x y); lra. Qed.

(** C6.  For gamma >= 0, where the sound speed is defined, [computeCFL]
    leaves the grid as it is and returns cfl dx / max(maxSignal, 1e-9),
    where maxSignal is the maximum over the cells of |u| + c_s of the cell's
    primitive state: an upper bound of every cell's signal speed that one
    cell attains.  The signal speed is the formula written out,
    c_s = sqrt(gamma max(p, 1e-14) / max(rho, 1e-14)) on the floored
    primitive state, not the helper of the code. *)
Theorem computeCFL_value (g : Grid.t) (cfl gamma : R) :
  Grid.wf g -> 0 <= gamma ->
  snd (Solver.computeCFL cfl gamma g) = g /\
  exists maxSignal : R,
    (forall c, c ∈ Grid.cells_ g -> signalSpeedSpec c gamma <= maxSignal) /\
    (exists c, c ∈ Grid.cells_ g /\ maxSignal = signalSpeedSpec c gamma) /\
    fst (Solver.computeCFL cfl gamma g) = cfl * Grid.dx_ g / Rmax maxSignal 1e-9.
Proof.
  intros Hwf _.
  split; [reflexivity|].
  rewrite computeCFL_run by exact Hwf.
  destruct Hwf as [Hpos Hlen].
  destruct (runningMax_bounds gamma (Grid.cells_ g) 0.0) as (Hge & Hall & Hex).
  set (m := fold_left (runningMax gamma) (Grid.cells_ g) 0.0) in *.
  exists m. split; [|split].
  - intros c Hc. rewrite <- signal_spec. now apply Hall.
  - destruct Hex as [Heq|(c & Hc & Heq)].
    + destruct (Grid.cells_ g) as [|c cs] eqn:Hcs; [cbn in Hlen; lia|].
      exists c. split; [apply elem_of_cons; now left|].
      assert (Hc : Solver.signal c gamma <= m) by (apply Hall, elem_of_cons; now left).
      pose proof (signal_nonneg c gamma). rewrite <- signal_spec. lra.
    + exists c. split; [exact Hc|]. now rewrite <- signal_spec.
  - now rewrite floor_lt_Rmax.
Qed.

Lemma computeCFL_value_witness :
  let g := Grid.mk 2 0 1 0.5 [Cell.mk 1 0 2.5; Cell.mk 0.125 0 0.25] in
  (Grid.wf g /\ 0 <= 1.4) /\ snd (Solver.computeCFL 0.8 1.4 g) = g.
Proof.
  cbn zeta.
  assert (Hwf : Grid.wf (Grid.mk 2 0 1 0.5 [Cell.mk 1 0 2.5; Cell.mk 0.125 0 0.25]))
    by (split; cbn; lia).
  assert (Hgamma : 0 <= 1.4) by lra.
  split; [split; [exact Hwf|exact Hgamma]|].
  apply (computeCFL_value (Grid.mk 2 0 1 0.5 [Cell.mk 1 0 2.5; Cell.mk 0.125 0 0.25])
           0.8 1.4 Hwf Hgamma).
Defined.

(** Two cells at rest: the maximum is in the sound speed alone.  On the two
    states of the shock tube, (rho, u, p) = (1, 0, 1) and (0.125, 0, 0.1), the
    sound speeds are sqrt 1.4 and sqrt 1.12, and the step is
    cfl dx / sqrt 1.4. *)
Example computeCFL_at_rest :
  let g := Grid.mk 2 0 1 0.5 [Cell.mk 1 0 2.5; Cell.mk 0.125 0 0.25] in
  fst (Solver.computeCFL 0.8 1.4 g) = 0.8 * 0.5 / sqrt 1.4.
Proof.
  cbn zeta. rewrite computeCFL_run by (split; cbn; lia).
  cbn [Grid.cells_ Grid.dx_ fold_left].
  assert (H1 : Solver.signal (Cell.mk 1 0 2.5) 1.4 = sqrt 1.4).
  { rewrite signal_spec. unfold signalSpeedSpec, soundSpeedSpec, toPrimitiveSpec.
    cbn [Cell.rho Cell.mom Cell.energy Primitive.rho Primitive.u Primitive.p].
    rewrite !(Rmax_left 1 1e-14) by lra.
    replace (0 / 1) with 0 by lra. rewrite Rabs_R0.
    replace ((1.4 - 1) * (2.5 - / 2 * 1 * 0 ^ 2)) with 1 by lra.
    rewrite !(Rmax_left 1 1e-14) by lra.
    replace (1.4 * 1 / 1) with 1.4 by lra. lra. }
  assert (H2 : Solver.signal (Cell.mk 0.125 0 0.25) 1.4 = sqrt 1.12).
  { rewrite signal_spec. unfold signalSpeedSpec, soundSpeedSpec, toPrimitiveSpec.
    cbn [Cell.rho Cell.mom Cell.energy Primitive.rho Primitive.u Primitive.p].
    rewrite !(Rmax_left 0.125 1e-14) by lra.
    replace (0 / 0.125) with 0 by lra. rewrite Rabs_R0.
    replace ((1.4 - 1) * (0.25 - / 2 * 0.125 * 0 ^ 2)) with 0.1 by lra.
    rewrite !(Rmax_left 0.1 1e-14) by lra.
    replace 0.125 with (/ 8) by lra.
    replace (1.4 * 0.1 / / 8) with 1.12 by (unfold Rdiv; rewrite Rinv_inv; lra). lra. }
  assert (H14 : 1 < sqrt 1.4).
  { rewrite <- sqrt_1 at 1. apply sqrt_lt_1_alt. lra. }
  assert (H112 : sqrt 1.12 < sqrt 1.4) by (apply sqrt_lt_1_alt; lra).
  unfold runningMax. rewrite H1, H2.
  destruct (Rgt_dec (sqrt 1.4) 0.0) as [_|Hn]; [|lra].
  destruct (Rgt_dec (sqrt 1.12) (sqrt 1.4)) as [Hc|_]; [lra|].
  destruct (Rlt_dec (sqrt 1.4) 1e-9) as [Hc|_]; [lra|].
  reflexivity.
Qed.

(** ** One time step *)

Lemma mapM_reads {A B : Type} (f : list Cell.t -> A -> B) (l : list A) (g : Grid.t) :
  mapM (fun i => bind Grid.cells (fun cells => ret (f cells i))) l g
  = (map (f (Grid.cells_ g)) l, g).
Proof.
  induction l as [|i l IH]; [reflexivity|].
  cbn [mapM map]. unfold bind, Grid.cells, gets, ret in IH |- *.
  cbn [fst snd] in IH |- *. rewrite IH. reflexivity.
Qed.

Lemma computeFluxes_run (nx : Z) (gamma : R) (bc : string) (g : Grid.t) :
  Solver.computeFluxes nx gamma bc g
  = (map (interfaceFlux (Grid.cells_ g) nx gamma bc) (seqZ 0 (nx + 1)), g).
Proof.
  unfold Solver.computeFluxes.
  rewrite <- (mapM_reads (fun cells i => interfaceFlux cells nx gamma bc i)).
  reflexivity.
Qed.

Lemma bind_run {S A B : Type} (m : State S A) (k : A -> State S B) (s : S) :
  bind m k s = k (fst (m s)) (snd (m s)).
Proof. reflexivity. Qed.

Lemma set_cells_id (g : Grid.t) : Grid.set_cells (Grid.cells_ g) g = g.
Proof. now destruct g. Qed.

(** The second loop of [step]: at iteration i the cells before i already
    hold their new value and [cells[i]] still holds the old one. *)
Lemma update_loop (F : list Flux.t) (dt dx : R) (suf pre : list Cell.t) (g : Grid.t) :
  Grid.cells_ g = pre ++ suf ->
  Grid.nx_ g = Z.of_nat (length (pre ++ suf)) ->
  snd (for_ (seqZ (Z.of_nat (length pre)) (Z.of_nat (length suf)))
         (fun i => bind Grid.cells (fun cells =>
                     Grid.setCell i (Solver.updatedCell (Grid.at_ cells i) F i dt dx))) g)
  = Grid.set_cells
      (pre ++ imap (fun j c => Solver.updatedCell c F (Z.of_nat (length pre + j)) dt dx) suf) g.
Proof.
  revert pre g. induction suf as [|c suf IH]; intros pre g Hcells Hnx.
  - cbn [length imap for_]. rewrite <- Hcells. symmetry. apply set_cells_id.
  - cbn [length]. rewrite seqZ_succ. cbn [for_].
    set (k := Z.of_nat (length pre)).
    set (c' := Solver.updatedCell c F k dt dx).
    set (body := fun i : Z => bind Grid.cells _).
    assert (Hbody : body k g = (tt, Grid.set_cells ((pre ++ [c']) ++ suf) g)).
    { subst body. run_state. rewrite Hcells. subst k.
      rewrite at_middle, in_range_true by (rewrite Hnx, length_app; cbn [length]; lia).
      cbn [snd]. f_equal. f_equal. rewrite Hcells, Nat2Z.id.
      rewrite insert_app_r_alt by lia. rewrite Nat.sub_diag. cbn.
      now rewrite <- app_assoc. }
    change (bind Grid.cells (fun cells =>
              Grid.setCell k (Solver.updatedCell (Grid.at_ cells k) F k dt dx)))
      with (body k).
    unfold bind at 1. rewrite Hbody. cbn [fst snd].
    subst k. rewrite (succ_length_snoc pre c').
    rewrite IH.
    + cbn [Grid.set_cells Grid.nx_ Grid.x0_ Grid.x1_ Grid.dx_]. unfold Grid.set_cells.
      f_equal. rewrite <- app_assoc. cbn [app imap]. f_equal. f_equal.
      * subst c'. f_equal. lia.
      * apply imap_ext. intros j x _. cbn. rewrite length_app. cbn [length].
        f_equal. lia.
    + reflexivity.
    + cbn [Grid.set_cells Grid.nx_]. rewrite Hnx, !length_app. cbn [length]. lia.
Qed.

(** What [step] leaves in the grid, in closed form: the boundary
    conditions, then every cell moved by the difference of the fluxes of
    its two interfaces. *)
Lemma step_run (g : Grid.t) (time dt gamma : R) (bc : string) :
  let g1 := snd (Grid.applyBoundaryConditions bc g) in
  let F := fst (Solver.computeFluxes (Grid.nx_ g) gamma bc g1) in
  Grid.nx_ g1 = Grid.nx_ g -> Grid.wf g1 ->
  Solver.step time dt gamma bc g =
  (time + dt,
   Grid.set_cells
     (imap (fun j c => Solver.updatedCell c F (Z.of_nat j) dt (Grid.dx_ g)) (Grid.cells_ g1)) g1).
Proof.
  intros g1 F Hnx [Hpos Hlen].
  unfold Solver.step.
  rewrite bind_run. change (Grid.size g) with (Grid.nx_ g, g). cbn [fst snd].
  rewrite bind_run. change (Grid.dx g) with (Grid.dx_ g, g). cbn [fst snd].
  rewrite bind_run. fold g1.
  rewrite bind_run. fold F.
  assert (HF : snd (Solver.computeFluxes (Grid.nx_ g) gamma bc g1) = g1)
    by now rewrite computeFluxes_run.
  rewrite HF.
  rewrite bind_run. unfold ret. f_equal.
  pose proof (update_loop F dt (Grid.dx_ g) (Grid.cells_ g1) [] g1) as Hloop.
  cbn [length app] in Hloop. change (Z.of_nat 0) with 0%Z in Hloop.
  rewrite Hlen, Hnx in Hloop.
  apply Hloop; [reflexivity|]. now rewrite <- Hnx, <- Hlen.
Qed.

(** The sum of a component after an update by flux differences
    telescopes. *)
Lemma total_telescope (proj : Cell.t -> R) (phi : nat -> R) (r : R)
    (upd : nat -> Cell.t -> Cell.t) (cs : list Cell.t) (k : nat) :
  (forall j c, proj (upd j c) = proj c - r * (phi (S j) - phi j)) ->
  total proj (imap (fun j c => upd (k + j)%nat c) cs)
  = total proj cs - r * (phi (k + length cs)%nat - phi k).
Proof.
  intros Hupd. revert k. induction cs as [|c cs IH]; intros k.
  - cbn [imap total foldr length]. rewrite Nat.add_0_r. lra.
  - cbn [imap length]. unfold total in *. cbn [foldr].
    rewrite (imap_ext _ (fun j c => upd (S k + j)%nat c) cs)
      by (intros j x _; cbn; f_equal; lia).
    rewrite IH, Hupd, Nat.add_0_r.
    replace (k + S (length cs))%nat with (S k + length cs)%nat by lia.
    lra.
Qed.

Lemma updated_total (proj : Cell.t -> R) (fproj : Flux.t -> R)
    (flux : list Flux.t) (dt dx : R) (cs : list Cell.t) :
  (forall c j, proj (Solver.updatedCell c flux j dt dx) =
               proj c - dt / dx * (fproj (Solver.flux_at flux (j + 1))
                                   - fproj (Solver.flux_at flux j))) ->
  total proj (imap (fun j c => Solver.updatedCell c flux (Z.of_nat j) dt dx) cs)
  = total proj cs
    - dt / dx * (fproj (Solver.flux_at flux (Z.of_nat (length cs)))
                 - fproj (Solver.flux_at flux 0)).
Proof.
  intros Hupd.
  apply (total_telescope proj (fun j => fproj (Solver.flux_at flux (Z.of_nat j))) (dt / dx)
           (fun j c => Solver.updatedCell c flux (Z.of_nat j) dt dx) cs 0).
  intros j c. rewrite Hupd. now rewrite Nat2Z.inj_succ, <- Z.add_1_r.
Qed.

Lemma flux_at_lookup (F : list Flux.t) (i : Z) (f : Flux.t) :
  (0 <= i)%Z -> F !! Z.to_nat i = Some f -> Solver.flux_at F i = f.
Proof.
  intros Hi Hf. unfold Solver.flux_at.
  destruct (Z.leb_spec 0 i); [|lia]. now rewrite Hf.
Qed.

(** C1.  Under [outflow], for every grid of N >= 1 cells, one call of
    [step] changes the sum over the cells of each conserved component by
    -(dt/dx) (flux[N] - flux[0]), where flux[0..N] are the N + 1 interface
    fluxes computed from the state before the update: each cell i becomes
    old - (dt/dx) (flux[i+1] - flux[i]) and the contributions of the interior
    interfaces cancel. *)
Theorem step_conserves_outflow (g : Grid.t) (time dt gamma : R) :
  Grid.wf g ->
  let N := Grid.nx_ g in
  let g' := snd (Solver.step time dt gamma "outflow" g) in
  let flux := fst (Solver.computeFluxes N gamma "outflow" g) in
  (Z.of_nat (length flux) = (N + 1)%Z /\
   forall i, (0 <= i <= N)%Z ->
     Solver.flux_at flux i = interfaceFlux (Grid.cells_ g) N gamma "outflow" i) /\
  (forall i, (0 <= i < N)%Z ->
     Grid.at_ (Grid.cells_ g') i =
     Solver.updatedCell (Grid.at_ (Grid.cells_ g) i) flux i dt (Grid.dx_ g)) /\
  total Cell.rho (Grid.cells_ g') =
    total Cell.rho (Grid.cells_ g)
    - dt / Grid.dx_ g * (Flux.rho (Solver.flux_at flux N) - Flux.rho (Solver.flux_at flux 0)) /\
  total Cell.mom (Grid.cells_ g') =
    total Cell.mom (Grid.cells_ g)
    - dt / Grid.dx_ g * (Flux.mom (Solver.flux_at flux N) - Flux.mom (Solver.flux_at flux 0)) /\
  total Cell.energy (Grid.cells_ g') =
    total Cell.energy (Grid.cells_ g)
    - dt / Grid.dx_ g * (Flux.eng (Solver.flux_at flux N) - Flux.eng (Solver.flux_at flux 0)).
Proof.
  intros Hwf N g' flux.
  assert (Hbc : snd (Grid.applyBoundaryConditions "outflow" g) = g)
    by (rewrite applyBoundaryConditions_other; [reflexivity|discriminate]).
  assert (Hstep : g' = Grid.set_cells
            (imap (fun j c => Solver.updatedCell c flux (Z.of_nat j) dt (Grid.dx_ g))
                  (Grid.cells_ g)) g).
  { subst g'. rewrite step_run; rewrite Hbc; [reflexivity|reflexivity|exact Hwf]. }
  destruct Hwf as [Hpos Hlen]. fold N in Hlen.
  split.
  { subst flux. rewrite computeFluxes_run. cbn [fst]. split.
    - rewrite length_map, length_seqZ. lia.
    - intros i Hi. apply flux_at_lookup; [lia|].
      rewrite list_lookup_fmap, lookup_seqZ_lt by lia.
      cbn. do 2 f_equal. lia. }
  rewrite Hstep. cbn [Grid.set_cells Grid.cells_].
  clear Hstep. clearbody flux. clearbody N. subst N.
  split.
  { intros i Hi. apply at_lookup; [lia|].
    rewrite list_lookup_imap, at_in_range by lia.
    cbn. do 2 f_equal. lia. }
  split; [|split]; apply updated_total; intros c j; reflexivity.
Qed.

Lemma step_conserves_outflow_witness :
  let g := Grid.mk 2 0 1 0.5 [Cell.mk 1 0 2.5; Cell.mk 0.125 0 0.25] in
  Grid.wf g /\
  total Cell.rho (Grid.cells_ (snd (Solver.step 0 0.1 1.4 "outflow" g))) =
    total Cell.rho (Grid.cells_ g)
    - 0.1 / Grid.dx_ g
      * (Flux.rho (Solver.flux_at (fst (Solver.computeFluxes 2 1.4 "outflow" g)) 2)
         - Flux.rho (Solver.flux_at (fst (Solver.computeFluxes 2 1.4 "outflow" g)) 0)).
Proof.
  cbn zeta.
  assert (Hwf : Grid.wf (Grid.mk 2 0 1 0.5 [Cell.mk 1 0 2.5; Cell.mk 0.125 0 0.25]))
    by (split; cbn; lia).
  split; [exact Hwf|].
  apply (step_conserves_outflow (Grid.mk 2 0 1 0.5 [Cell.mk 1 0 2.5; Cell.mk 0.125 0 0.25])
           0 0.1 1.4 Hwf).
Defined.

(** ** The class invariant holds of every grid the program builds *)

Lemma construct_wf (nx : Z) (x0 x1 : R) : Grid.wf (Grid.construct nx x0 x1).
Proof.
  unfold Grid.construct, Grid.wf. cbn [Grid.nx_ Grid.cells_].
  rewrite length_replicate.
  destruct (Z.leb_spec nx 0); lia.
Qed.

Lemma setCell_wf (g : Grid.t) (i : Z) (c : Cell.t) :
  Grid.wf g -> Grid.wf (snd (Grid.setCell i c g)).
Proof.
  intros [Hpos Hlen]. run_state.
  destruct ((0 <=? i)%Z && (i <? Grid.nx_ g)%Z); cbn [snd]; [|now split].
  split; cbn [Grid.set_cells Grid.nx_ Grid.cells_]; [exact Hpos|].
  now rewrite length_insert.
Qed.

Lemma applyBoundaryConditions_wf (g : Grid.t) (bc : string) :
  Grid.wf g ->
  Grid.wf (snd (Grid.applyBoundaryConditions bc g)) /\
  Grid.nx_ (snd (Grid.applyBoundaryConditions bc g)) = Grid.nx_ g /\
  Grid.dx_ (snd (Grid.applyBoundaryConditions bc g)) = Grid.dx_ g.
Proof.
  intros Hwf.
  destruct (String.eqb_spec bc "reflective") as [->|Hbc];
    [|now rewrite applyBoundaryConditions_other].
  destruct (Z.lt_ge_cases (Grid.nx_ g) 2) as [Hn|Hn];
    [now rewrite applyBoundaryConditions_small|].
  rewrite applyBoundaryConditions_reflective by exact Hn.
  destruct Hwf as [Hpos Hlen]. run_state.
  split; [split|split; reflexivity]; cbn [Grid.set_cells Grid.nx_ Grid.cells_];
    [exact Hpos|].
  now rewrite !length_insert.
Qed.

Lemma step_wf (g : Grid.t) (time dt gamma : R) (bc : string) :
  Grid.wf g -> Grid.wf (snd (Solver.step time dt gamma bc g)).
Proof.
  intros Hwf.
  destruct (applyBoundaryConditions_wf g bc Hwf) as ([Hpos Hlen] & Hnx & _).
  rewrite step_run by (assumption || now split).
  split; cbn [snd Grid.set_cells Grid.nx_ Grid.cells_]; [exact Hpos|].
  now rewrite length_imap.
Qed.

(** The grid that [main] builds for the Sod problem on two cells. *)
Example initialize_sod_two_cells :
  snd (Grid.initialize (Primitive.mk 1.0 0.0 1.0) (Primitive.mk 0.125 0.0 0.1) 0.5
         (Grid.construct 2 0.0 1.0))
  = Grid.mk 2 0.0 1.0 ((1.0 - 0.0) / IZR 2)
      [primitiveToConserved (Primitive.mk 1.0 0.0 1.0);
       primitiveToConserved (Primitive.mk 0.125 0.0 0.1)] /\
  primitiveToConserved (Primitive.mk 1.0 0.0 1.0) = Cell.mk 1 0 2.5 /\
  primitiveToConserved (Primitive.mk 0.125 0.0 0.1) = Cell.mk 0.125 0 0.25.
Proof.
  split; [|split].
  - unfold Grid.initialize, Grid.construct.
    change (2 <=? 0)%Z with false. cbv iota.
    change (replicate (Z.to_nat 2) Grid.zero_cell) with [Grid.zero_cell; Grid.zero_cell].
    rewrite bind_run. unfold gets at 1 2. cbn [fst snd Grid.nx_].
    change (seqZ 0 2) with [0%Z; 1%Z]. cbn [for_].
    rewrite !bind_run. unfold gets, ret, modify.
    cbn [fst snd Grid.set_cells Grid.nx_ Grid.x0_ Grid.x1_ Grid.dx_ Grid.cells_].
    destruct (Rlt_dec (0.0 + (IZR 0 + 0.5) * ((1.0 - 0.0) / IZR 2)) 0.5) as [_|Hc]; [|lra].
    cbn [fst snd Grid.set_cells Grid.nx_ Grid.x0_ Grid.x1_ Grid.dx_ Grid.cells_].
    destruct (Rlt_dec (0.0 + (IZR 1 + 0.5) * ((1.0 - 0.0) / IZR 2)) 0.5) as [Hc|_]; [lra|].
    reflexivity.
  - unfold primitiveToConserved, GAMMA. cbn [Primitive.rho Primitive.u Primitive.p].
    f_equal; lra.
  - unfold primitiveToConserved, GAMMA. cbn [Primitive.rho Primitive.u Primitive.p].
    f_equal; lra.
Qed.

(** ** The driver *)

Lemma step_time (g : Grid.t) (time dt gamma : R) (bc : string) :
  fst (Solver.step time dt gamma bc g) = time + dt.
Proof. reflexivity. Qed.

Lemma loopBody_time (p : Params.t) (l : Solver.Locals) (w : Solver.World) :
  Solver.time (fst (Solver.loopBody p l w)) = Solver.time l + clampedDt p l w.
Proof.
  unfold Solver.loopBody, clampedDt.
  rewrite bind_run.
  set (dt0 := fst (Solver.onGrid (Solver.computeCFL (Params.cfl p) (Params.gamma p)) w)).
  change (fst (Solver.computeCFL (Params.cfl p) (Params.gamma p) (Solver.grid w))) with dt0.
  set (dt := if Rgt_dec (Solver.time l + dt0) (Params.t_final p) then _ else _).
  rewrite bind_run.
  destruct (Rge_dec (Solver.time_since_last_output l + dt) (Params.output_dt p));
    reflexivity.
Qed.

Lemma loopBody_grid (p : Params.t) (l : Solver.Locals) (w : Solver.World) :
  Solver.grid (snd (Solver.loopBody p l w)) =
  snd (Solver.step (Solver.time l) (clampedDt p l w) (Params.gamma p) (Params.bc_type p)
         (Solver.grid w)).
Proof.
  unfold Solver.loopBody, clampedDt.
  rewrite bind_run.
  set (dt0 := fst (Solver.onGrid (Solver.computeCFL (Params.cfl p) (Params.gamma p)) w)).
  change (fst (Solver.computeCFL (Params.cfl p) (Params.gamma p) (Solver.grid w))) with dt0.
  set (dt := if Rgt_dec (Solver.time l + dt0) (Params.t_final p) then _ else _).
  rewrite bind_run.
  destruct (Rge_dec (Solver.time_since_last_output l + dt) (Params.output_dt p));
    reflexivity.
Qed.

Lemma while_exit (fuel : nat) (p : Params.t) (l : Solver.Locals) (w : Solver.World) :
  Params.t_final p <= Solver.time l -> Solver.while_ fuel p l w = (Some l, w).
Proof.
  intros Hge. destruct fuel; cbn [Solver.while_];
    (destruct (Rlt_dec (Solver.time l) (Params.t_final p)); [lra|reflexivity]).
Qed.

Lemma while_pass (fuel : nat) (p : Params.t) (l : Solver.Locals) (w : Solver.World) :
  Solver.time l < Params.t_final p ->
  Solver.while_ (S fuel) p l w =
  Solver.while_ fuel p (fst (Solver.loopBody p l w)) (snd (Solver.loopBody p l w)).
Proof.
  intros Hlt. cbn [Solver.while_].
  destruct (Rlt_dec (Solver.time l) (Params.t_final p)); [|lra].
  now rewrite bind_run.
Qed.

Lemma while_exits_late (fuel : nat) (p : Params.t) (l l' : Solver.Locals)
    (w w' : Solver.World) :
  Solver.while_ fuel p l w = (Some l', w') -> Params.t_final p <= Solver.time l'.
Proof.
  revert l w. induction fuel as [|fuel IH]; intros l w;
    destruct (Rlt_dec (Solver.time l) (Params.t_final p)) as [Hlt|Hge].
  - cbn [Solver.while_]. destruct (Rlt_dec _ _); [discriminate|lra].
  - rewrite while_exit by lra. intros [= <- <-]. lra.
  - rewrite while_pass by exact Hlt. apply IH.
  - rewrite while_exit by lra. intros [= <- <-]. lra.
Qed.

(** C9, as stated, fails when [t_final] is negative: the driver starts at
    time 0, the loop is not entered, and the time of the whole run (that of
    the two snapshots it writes) is 0, above [t_final]. *)
Lemma negative_final_time_counterexample :
  let p := Params.mk 2 0 1 (-1) 0.8 1.4 "data/outputs" 0.01 1 0 1 0.125 0 0.1 0.5 "outflow" in
  let g := Grid.mk 2 0 1 0.5 [Cell.mk 1 0 2.5; Cell.mk 0.125 0 0.25] in
  let w0 := Solver.mkWorld g [] in
  Solver.runSimulation 0 p w0 =
    (Some tt,
     Solver.mkWorld g [Log "Simulation Complete."; Snapshot 1 g 0.0; Snapshot 0 g 0.0;
                       Log "Output directory: data/outputs"; Log "Starting Simulation..."]) /\
  loopReach p (Solver.initialLocals, w0) (Solver.initialLocals, w0) /\
  Solver.time Solver.initialLocals > Params.t_final p.
Proof.
  cbn zeta. split; [|split].
  - unfold Solver.runSimulation. rewrite !bind_run.
    rewrite while_exit by (cbn [Params.t_final Solver.time Solver.initialLocals]; lra).
    reflexivity.
  - apply reach_start.
  - cbn [Params.t_final Solver.time Solver.initialLocals]. lra.
Qed.

(** C9, amended.  When [t_final >= 0]:
    - a pass of the loop of [runSimulation] whose CFL step would take the
      time above [t_final] advances the grid by dt = t_final - time instead,
      and the time after it is the sum time + (t_final - time) that the code
      computes; a pass whose step is not clamped advances the grid and the
      time by the CFL step and leaves the time at most [t_final];
    - so at every test of the loop the time is at most [t_final], unless the
      pass before the test was a clamped one;
    - the loop runs another pass while the time is below [t_final], exits
      as soon as the time has reached [t_final], and exits only then.
    The statement keeps the sum of a clamped pass as the code writes it:
    that it is [t_final] itself is a fact of real numbers, not one of the
    numbers of the machine (see [Binary64.clampedAdvance]), and is not
    claimed. *)
Theorem runSimulation_clamp (p : Params.t) (w0 : Solver.World) :
  0 <= Params.t_final p ->
  let cflStep w := fst (Solver.computeCFL (Params.cfl p) (Params.gamma p) (Solver.grid w)) in
  let stepped l w dt :=
    snd (Solver.step (Solver.time l) dt (Params.gamma p) (Params.bc_type p) (Solver.grid w)) in
  (forall l w,
     let l' := fst (Solver.loopBody p l w) in
     let w' := snd (Solver.loopBody p l w) in
     (Solver.time l + cflStep w > Params.t_final p ->
        Solver.grid w' = stepped l w (Params.t_final p - Solver.time l) /\
        Solver.time l' = Solver.time l + (Params.t_final p - Solver.time l)) /\
     (Solver.time l + cflStep w <= Params.t_final p ->
        Solver.grid w' = stepped l w (cflStep w) /\
        Solver.time l' = Solver.time l + cflStep w /\
        Solver.time l' <= Params.t_final p)) /\
  (forall l w, loopReach p (Solver.initialLocals, w0) (l, w) ->
     Solver.time l <= Params.t_final p \/
     exists l0 w1,
       loopReach p (Solver.initialLocals, w0) (l0, w1) /\
       Solver.time l0 < Params.t_final p /\
       Solver.time l0 + cflStep w1 > Params.t_final p /\
       (l, w) = Solver.loopBody p l0 w1) /\
  (forall fuel l w, Solver.time l < Params.t_final p ->
     Solver.while_ (S fuel) p l w =
     Solver.while_ fuel p (fst (Solver.loopBody p l w)) (snd (Solver.loopBody p l w))) /\
  (forall fuel l w, Params.t_final p <= Solver.time l ->
     Solver.while_ fuel p l w = (Some l, w)) /\
  (forall fuel l w l' w', Solver.while_ fuel p l w = (Some l', w') ->
     Params.t_final p <= Solver.time l').
Proof.
  intros Hfinal cflStep stepped.
  assert (Hpass : forall l w,
     (Solver.time l + cflStep w > Params.t_final p ->
        Solver.grid (snd (Solver.loopBody p l w)) = stepped l w (Params.t_final p - Solver.time l) /\
        Solver.time (fst (Solver.loopBody p l w)) =
          Solver.time l + (Params.t_final p - Solver.time l)) /\
     (Solver.time l + cflStep w <= Params.t_final p ->
        Solver.grid (snd (Solver.loopBody p l w)) = stepped l w (cflStep w) /\
        Solver.time (fst (Solver.loopBody p l w)) = Solver.time l + cflStep w /\
        Solver.time (fst (Solver.loopBody p l w)) <= Params.t_final p)).
  { intros l w.
    pose proof (loopBody_grid p l w) as Hgrid.
    pose proof (loopBody_time p l w) as Htime.
    unfold clampedDt in Hgrid, Htime. fold (cflStep w) in Hgrid, Htime.
    destruct (Rgt_dec (Solver.time l + cflStep w) (Params.t_final p)) as [Hgt|Hle].
    - split; [intros _; split; assumption|intros Hc; lra].
    - split; [intros Hc; lra|]. intros Hc.
      split; [exact Hgrid|]. split; [exact Htime|]. rewrite Htime. exact Hc. }
  split; [exact Hpass|]. split; [|split; [|split]].
  - intros l w Hreach.
    inversion Hreach as [Hstart|l0 w1 Hreach0 Hlt Hbody].
    + left. cbn [Solver.time Solver.initialLocals]. lra.
    + destruct (Rgt_dec (Solver.time l0 + cflStep w1) (Params.t_final p)) as [Hgt|Hle].
      * right. exists l0, w1.
        split; [exact Hreach0|]. split; [exact Hlt|]. split; [exact Hgt|].
        now symmetry.
      * left. destruct (Hpass l0 w1) as [_ Hunclamped].
        destruct Hunclamped as (_ & _ & Hbound); [lra|].
        now rewrite Hbody in Hbound.
  - intros fuel l w Hlt. now apply while_pass.
  - intros fuel l w Hge. now apply while_exit.
  - intros fuel l w l' w' Hrun. exact (while_exits_late fuel p l l' w w' Hrun).
Qed.

Lemma runSimulation_clamp_witness :
  let p := Params.mk 2 0 1 0.2 0.8 1.4 "data/outputs" 0.01 1 0 1 0.125 0 0.1 0.5 "outflow" in
  let g := Grid.mk 2 0 1 0.5 [Cell.mk 1 0 2.5; Cell.mk 0.125 0 0.25] in
  let w0 := Solver.mkWorld g [] in
  0 <= Params.t_final p /\
  (forall fuel l w l' w', Solver.while_ fuel p l w = (Some l', w') ->
     Params.t_final p <= Solver.time l').
Proof.
  cbn zeta.
  assert (Hfinal : 0 <= Params.t_final
            (Params.mk 2 0 1 0.2 0.8 1.4 "data/outputs" 0.01 1 0 1 0.125 0 0.1 0.5 "outflow"))
    by (cbn [Params.t_final]; lra).
  split; [exact Hfinal|].
  exact (proj2 (proj2 (proj2 (proj2
    (runSimulation_clamp
       (Params.mk 2 0 1 0.2 0.8 1.4 "data/outputs" 0.01 1 0 1 0.125 0 0.1 0.5 "outflow")
       (Solver.mkWorld (Grid.mk 2 0 1 0.5 [Cell.mk 1 0 2.5; Cell.mk 0.125 0 0.25]) [])
       Hfinal))))).
Defined.

(** The sum of a clamped pass on the numbers of the machine.  From the
    time 0.12 with [t_final] = 1.8 the clamped pass ends one unit in the last
    place above [t_final]; from the time 0.118 it ends one unit below, so
    that the loop runs once more; from the time 0.9 it ends on [t_final]. *)
Module Binary64Examples.
Import PrimFloat.
Set Warnings "-inexact-float".

Example clampedAdvance_above :
  (1.8 <? Binary64.clampedAdvance 0.12 2 1.8)%float = true.
Proof. vm_compute. reflexivity. Qed.

Example clampedAdvance_below :
  (Binary64.clampedAdvance 0.118 2 1.8 <? 1.8)%float = true.
Proof. vm_compute. reflexivity. Qed.

Example clampedAdvance_exact :
  (Binary64.clampedAdvance 0.9 2 1.8 =? 1.8)%float = true.
Proof. vm_compute. reflexivity. Qed.

Example clampedAdvance_unclamped :
  (Binary64.clampedAdvance 0.5 0.25 1.8 =? 0.75)%float = true.
Proof. vm_compute. reflexivity. Qed.

Set Warnings "+inexact-float".
End Binary64Examples.

(** * Further properties of the code *)

(** ** The grid: construction and initial condition *)

(** X1.  The constructor builds a grid of N cells, N being [nx] when it is
    positive and 100 otherwise; the cells are zero, the class invariant
    holds, and the N cells of width [dx] cover the domain: N dx = x1 - x0. *)
Theorem construct_geometry (nx : Z) (x0 x1 : R) :
  let g := Grid.construct nx x0 x1 in
  let N := if (nx <=? 0)%Z then 100%Z else nx in
  Grid.wf g /\
  Grid.nx_ g = N /\ Z.of_nat (length (Grid.cells_ g)) = N /\
  (forall c, c ∈ Grid.cells_ g -> Cell.rho c = 0 /\ Cell.mom c = 0 /\ Cell.energy c = 0) /\
  Grid.x0_ g = x0 /\ Grid.x1_ g = x1 /\
  Grid.dx_ g * IZR N = x1 - x0.
Proof.
  intros g N.
  assert (HN : (0 < N)%Z) by (subst N; destruct (Z.leb_spec nx 0); lia).
  assert (Hlen : Z.of_nat (length (Grid.cells_ g)) = N).
  { subst g N. unfold Grid.construct. cbn [Grid.cells_].
    rewrite length_replicate. destruct (Z.leb_spec nx 0); lia. }
  split; [split; [exact HN|exact Hlen]|].
  split; [reflexivity|]. split; [exact Hlen|].
  split.
  { intros c Hc. subst g. unfold Grid.construct in Hc. cbn [Grid.cells_] in Hc.
    apply elem_of_replicate in Hc as [-> _].
    unfold Grid.zero_cell. cbn [Cell.rho Cell.mom Cell.energy]. repeat split; lra. }
  split; [reflexivity|]. split; [reflexivity|].
  subst g. unfold Grid.construct. cbn [Grid.dx_]. fold N.
  field. apply not_0_IZR. lia.
Qed.

(** One iteration of the loop of [initialize]. *)
Lemma initialize_body (cLeft cRight : Cell.t) (interface_pos : R) (i : Z) (g : Grid.t) :
  bind (gets Grid.x0_) (fun x0 => bind (gets Grid.dx_) (fun dx =>
    if Rlt_dec (x0 + (IZR i + 0.5) * dx) interface_pos
    then modify (fun g => Grid.set_cells (<[Z.to_nat i := cLeft]> (Grid.cells_ g)) g)
    else modify (fun g => Grid.set_cells (<[Z.to_nat i := cRight]> (Grid.cells_ g)) g))) g
  = (tt, Grid.set_cells
           (<[Z.to_nat i :=
                if Rlt_dec (Grid.x0_ g + (IZR i + 0.5) * Grid.dx_ g) interface_pos
                then cLeft else cRight]> (Grid.cells_ g)) g).
Proof.
  rewrite !bind_run. unfold gets. cbn [fst snd].
  destruct (Rlt_dec _ _); reflexivity.
Qed.

Lemma initialize_loop (left right : Primitive.t) (interface_pos : R)
    (suf pre : list Cell.t) (g : Grid.t) :
  Grid.cells_ g = pre ++ suf ->
  snd (for_ (seqZ (Z.of_nat (length pre)) (Z.of_nat (length suf)))
         (fun i => bind (gets Grid.x0_) (fun x0 => bind (gets Grid.dx_) (fun dx =>
            if Rlt_dec (x0 + (IZR i + 0.5) * dx) interface_pos
            then modify (fun g => Grid.set_cells
                           (<[Z.to_nat i := primitiveToConserved left]> (Grid.cells_ g)) g)
            else modify (fun g => Grid.set_cells
                           (<[Z.to_nat i := primitiveToConserved right]> (Grid.cells_ g)) g))))
         g)
  = Grid.set_cells
      (pre ++ imap (fun j _ => initialCell left right interface_pos (Grid.x0_ g) (Grid.dx_ g)
                                 (Z.of_nat (length pre + j))) suf) g.
Proof.
  revert pre g. induction suf as [|c suf IH]; intros pre g Hcells.
  - cbn [length imap for_]. rewrite <- Hcells. symmetry. apply set_cells_id.
  - cbn [length]. rewrite seqZ_succ. cbn [for_].
    rewrite bind_run, initialize_body. cbn [fst snd].
    set (k := Z.of_nat (length pre)).
    set (c' := if Rlt_dec _ _ then _ else _).
    assert (Hins : <[Z.to_nat k := c']> (Grid.cells_ g) = (pre ++ [c']) ++ suf).
    { rewrite Hcells. subst k. rewrite Nat2Z.id.
      rewrite insert_app_r_alt by lia. rewrite Nat.sub_diag. cbn.
      now rewrite <- app_assoc. }
    rewrite Hins. subst k. rewrite (succ_length_snoc pre c').
    rewrite IH by reflexivity.
    cbn [Grid.set_cells Grid.nx_ Grid.x0_ Grid.x1_ Grid.dx_]. unfold Grid.set_cells.
    f_equal. rewrite <- app_assoc. cbn [app imap]. f_equal. f_equal.
    + subst c'. unfold initialCell. rewrite Nat.add_0_r. reflexivity.
    + apply imap_ext. intros j x _. cbn. rewrite length_app. cbn [length].
      f_equal. lia.
Qed.

Lemma initialize_run (left right : Primitive.t) (interface_pos : R) (g : Grid.t) :
  Grid.wf g ->
  snd (Grid.initialize left right interface_pos g)
  = Grid.set_cells
      (imap (fun j _ => initialCell left right interface_pos (Grid.x0_ g) (Grid.dx_ g)
                          (Z.of_nat j)) (Grid.cells_ g)) g.
Proof.
  intros [Hpos Hlen]. unfold Grid.initialize.
  rewrite bind_run. unfold gets at 1 2. cbn [fst snd].
  pose proof (initialize_loop left right interface_pos (Grid.cells_ g) [] g eq_refl) as Hloop.
  cbn [length app] in Hloop. change (Z.of_nat 0) with 0%Z in Hloop.
  rewrite Hlen in Hloop. exact Hloop.
Qed.

Lemma grid_primitiveToConserved_spec (P : Primitive.t) :
  primitiveToConserved P = toConservedSpec P 1.4.
Proof.
  unfold primitiveToConserved, toConservedSpec, GAMMA.
  f_equal. replace 1.0 with 1 by lra. lra.
Qed.

(** A property of the indices 0 .. n - 1 that passes from an index to the
    smaller ones holds exactly below one index. *)
Lemma switch_point (P : Z -> Prop) (n : nat) :
  (forall i, P i \/ ~ P i) ->
  (forall i j, (0 <= i <= j)%Z -> P j -> P i) ->
  exists k, (0 <= k <= Z.of_nat n)%Z /\
            forall i, (0 <= i < Z.of_nat n)%Z -> (P i <-> (i < k)%Z).
Proof.
  intros Hdec Hdown. induction n as [|n (k & Hk & IH)].
  - exists 0%Z. split; [lia|]. intros i Hi. lia.
  - destruct (Hdec (Z.of_nat n)) as [Hn|Hn].
    + exists (Z.of_nat (S n)). split; [lia|].
      intros i Hi. split; [lia|]. intros _.
      apply (Hdown i (Z.of_nat n)); [lia|exact Hn].
    + exists k. split; [lia|].
      intros i Hi. destruct (Z.eq_dec i (Z.of_nat n)) as [->|Hne].
      * split; [intros Hc; now destruct Hn|lia].
      * apply IH. lia.
Qed.

(** The cell centres do not decrease with the index when dx >= 0. *)
Lemma centre_mono (x0 dx : R) (i j : Z) :
  0 <= dx -> (i <= j)%Z -> x0 + (IZR i + 0.5) * dx <= x0 + (IZR j + 0.5) * dx.
Proof.
  intros Hdx Hij. apply IZR_le in Hij.
  apply Rplus_le_compat_l, Rmult_le_compat_r; lra.
Qed.

(** The cells that [initialize] leaves, as one switch from the left state
    to the right state. *)
Lemma initialize_switch (left right : Primitive.t) (interface_pos : R) (g : Grid.t) :
  Grid.wf g -> 0 <= Grid.dx_ g ->
  exists k, (0 <= k <= Grid.nx_ g)%Z /\
    (interface_pos <= Grid.x0_ g -> k = 0%Z) /\
    forall i, (0 <= i < Grid.nx_ g)%Z ->
      Grid.cells_ (snd (Grid.initialize left right interface_pos g)) !! Z.to_nat i =
        Some (if (i <? k)%Z then primitiveToConserved left else primitiveToConserved right).
Proof.
  intros Hwf Hdx. rewrite initialize_run by exact Hwf.
  destruct Hwf as [Hpos Hlen]. cbn [Grid.set_cells Grid.cells_].
  set (centre i := Grid.x0_ g + (IZR i + 0.5) * Grid.dx_ g).
  destruct (switch_point (fun i => centre i < interface_pos) (length (Grid.cells_ g)))
    as (k & Hk & Hswitch).
  { intros i. destruct (Rlt_dec (centre i) interface_pos); [now left|now right]. }
  { intros i j Hij Hj. cbv beta in *. unfold centre in *.
    pose proof (centre_mono (Grid.x0_ g) (Grid.dx_ g) i j Hdx (proj2 Hij)). lra. }
  rewrite Hlen in Hk, Hswitch.
  assert (Hcell : forall i, (0 <= i < Grid.nx_ g)%Z ->
            imap (fun j _ => initialCell left right interface_pos (Grid.x0_ g) (Grid.dx_ g)
                               (Z.of_nat j)) (Grid.cells_ g) !! Z.to_nat i =
            Some (if (i <? k)%Z then primitiveToConserved left
                  else primitiveToConserved right)).
  { intros i Hi. rewrite list_lookup_imap, at_in_range by lia. cbn.
    rewrite Z2Nat.id by lia. f_equal. unfold initialCell. fold (centre i).
    specialize (Hswitch i Hi). cbv beta in Hswitch.
    destruct (Rlt_dec (centre i) interface_pos) as [Hlt|Hge], (Z.ltb_spec i k);
      try reflexivity.
    - apply Hswitch in Hlt. lia.
    - destruct Hge. apply Hswitch. lia. }
  destruct (Rle_dec interface_pos (Grid.x0_ g)) as [Hleft|Hin].
  - exists 0%Z. split; [lia|]. split; [reflexivity|].
    intros i Hi. rewrite (Hcell i Hi).
    destruct (Z.ltb_spec i k) as [Hik|_], (Z.ltb_spec i 0); try lia; try reflexivity.
    apply (Hswitch i Hi) in Hik. cbv beta in Hik.
    pose proof (centre_mono (Grid.x0_ g) (Grid.dx_ g) 0 i Hdx (proj1 Hi)) as Hm.
    assert (H0 : 0 <= (IZR 0 + 0.5) * Grid.dx_ g) by (apply Rmult_le_pos; lra).
    unfold centre in Hik. lra.
  - exists k. split; [exact Hk|]. split; [intros Hc; now destruct Hin|exact Hcell].
Qed.

(** X2.  On a grid with dx >= 0, [initialize] keeps the geometry and the
    class invariant and writes one sharp discontinuity: there is an index k
    such that the cells before k hold the conserved form
    (rho, rho u, p / 0.4 + rho u^2 / 2) of the left state and the cells from k
    on hold that of the right state; when the interface position is not to
    the right of x0, every cell holds the right state. *)
Theorem initialize_cells (left right : Primitive.t) (interface_pos : R) (g : Grid.t) :
  Grid.wf g -> 0 <= Grid.dx_ g ->
  let g' := snd (Grid.initialize left right interface_pos g) in
  (Grid.wf g' /\ Grid.nx_ g' = Grid.nx_ g /\ Grid.x0_ g' = Grid.x0_ g /\
   Grid.x1_ g' = Grid.x1_ g /\ Grid.dx_ g' = Grid.dx_ g) /\
  (exists k, (0 <= k <= Grid.nx_ g)%Z /\
     forall i, (0 <= i < Grid.nx_ g)%Z ->
       Grid.at_ (Grid.cells_ g') i =
         if (i <? k)%Z then toConservedSpec left 1.4 else toConservedSpec right 1.4) /\
  (interface_pos <= Grid.x0_ g ->
     forall i, (0 <= i < Grid.nx_ g)%Z ->
       Grid.at_ (Grid.cells_ g') i = toConservedSpec right 1.4).
Proof.
  intros Hwf Hdx g'.
  destruct (initialize_switch left right interface_pos g Hwf Hdx) as (k & Hk & Hk0 & Hcells).
  fold g' in Hcells.
  assert (Hgeom : Grid.wf g' /\ Grid.nx_ g' = Grid.nx_ g /\ Grid.x0_ g' = Grid.x0_ g /\
                  Grid.x1_ g' = Grid.x1_ g /\ Grid.dx_ g' = Grid.dx_ g).
  { subst g'. rewrite initialize_run by exact Hwf. destruct Hwf as [Hpos Hlen].
    split; [split; cbn [Grid.set_cells Grid.nx_ Grid.cells_];
            [exact Hpos|rewrite length_imap; exact Hlen]|].
    repeat split. }
  assert (Hat : forall i, (0 <= i < Grid.nx_ g)%Z ->
            Grid.at_ (Grid.cells_ g') i =
            if (i <? k)%Z then toConservedSpec left 1.4 else toConservedSpec right 1.4).
  { intros i Hi. rewrite <- !grid_primitiveToConserved_spec.
    apply at_lookup; [lia|]. now apply Hcells. }
  split; [exact Hgeom|]. split.
  - exists k. split; [exact Hk|exact Hat].
  - intros Hleft i Hi. rewrite (Hat i Hi), (Hk0 Hleft).
    destruct (Z.ltb_spec i 0); [lia|reflexivity].
Qed.

Lemma initialize_cells_witness :
  let g := Grid.construct 2 0 1 in
  (Grid.wf g /\ 0 <= Grid.dx_ g) /\
  Grid.nx_ (snd (Grid.initialize (Primitive.mk 1 0 1) (Primitive.mk 0.125 0 0.1) 0.5 g))
  = Grid.nx_ g.
Proof.
  cbn zeta.
  assert (Hwf : Grid.wf (Grid.construct 2 0 1)) by apply construct_wf.
  assert (Hdx : 0 <= Grid.dx_ (Grid.construct 2 0 1)).
  { unfold Grid.construct. change (2 <=? 0)%Z with false. cbn [Grid.dx_].
    apply Rmult_le_pos; [lra|]. apply Rlt_le, Rinv_0_lt_compat. lra. }
  split; [split; [exact Hwf|exact Hdx]|].
  apply (initialize_cells (Primitive.mk 1 0 1) (Primitive.mk 0.125 0 0.1) 0.5
           (Grid.construct 2 0 1) Hwf Hdx).
Defined.

(** The helpers of grid.cpp undo each other above the floors. *)
Lemma grid_helpers_roundtrip (P : Primitive.t) :
  1e-14 <= Primitive.rho P -> 1e-14 <= Primitive.p P ->
  conservedToPrimitive (primitiveToConserved P) = P.
Proof.
  destruct P as [rho u p]. cbn [Primitive.rho Primitive.p]. intros Hrho Hp.
  unfold conservedToPrimitive, primitiveToConserved, GAMMA.
  cbn [Cell.rho Cell.mom Cell.energy Primitive.rho Primitive.u Primitive.p].
  rewrite (floor_if_Rmax rho), (Rmax_left rho) by lra.
  replace (rho * u / rho) with u by (field; lra).
  replace ((1.4 - 1.0) * (p / (1.4 - 1.0) + 0.5 * rho * u * u - 0.5 * rho * u * u))
    with p by (field; lra).
  rewrite floor_if_Rmax, Rmax_left by lra.
  reflexivity.
Qed.

(** X3.  In exact real arithmetic, when the two initial states have density
    and pressure at least 1e-14 and dx >= 0, the primitive view of the grid
    that [initialize] filled gives the initial states back: [primitives()]
    leaves the grid as it is and has one entry per cell, the left state for
    the cells before the index k of the discontinuity and the right state
    from k on. *)
Theorem primitives_after_initialize (left right : Primitive.t) (interface_pos : R)
    (g : Grid.t) :
  Grid.wf g -> 0 <= Grid.dx_ g ->
  1e-14 <= Primitive.rho left -> 1e-14 <= Primitive.p left ->
  1e-14 <= Primitive.rho right -> 1e-14 <= Primitive.p right ->
  let g' := snd (Grid.initialize left right interface_pos g) in
  let prims := fst (Grid.primitives g') in
  snd (Grid.primitives g') = g' /\
  Z.of_nat (length prims) = Grid.nx_ g /\
  exists k, (0 <= k <= Grid.nx_ g)%Z /\
    forall i, (0 <= i < Grid.nx_ g)%Z ->
      prims !! Z.to_nat i = Some (if (i <? k)%Z then left else right).
Proof.
  intros Hwf Hdx Hlr Hlp Hrr Hrp g' prims.
  split; [reflexivity|].
  assert (Hprims : prims = conservedToPrimitive <$> Grid.cells_ g') by reflexivity.
  destruct (initialize_switch left right interface_pos g Hwf Hdx) as (k & Hk & _ & Hcells).
  fold g' in Hcells.
  split.
  - rewrite Hprims, length_fmap. subst g'. rewrite initialize_run by exact Hwf.
    cbn [Grid.set_cells Grid.cells_]. rewrite length_imap. apply Hwf.
  - exists k. split; [exact Hk|].
    intros i Hi. rewrite Hprims, list_lookup_fmap, (Hcells i Hi). cbn. f_equal.
    destruct (i <? k)%Z; now apply grid_helpers_roundtrip.
Qed.

Lemma primitives_after_initialize_witness :
  let g := Grid.construct 2 0 1 in
  let left := Primitive.mk 1 0 1 in
  let right := Primitive.mk 0.125 0 0.1 in
  (Grid.wf g /\ 0 <= Grid.dx_ g /\ 1e-14 <= Primitive.rho left /\ 1e-14 <= Primitive.p left /\
   1e-14 <= Primitive.rho right /\ 1e-14 <= Primitive.p right) /\
  Z.of_nat (length (fst (Grid.primitives (snd (Grid.initialize left right 0.5 g)))))
  = Grid.nx_ g.
Proof.
  cbn zeta.
  assert (Hwf : Grid.wf (Grid.construct 2 0 1)) by apply construct_wf.
  assert (Hdx : 0 <= Grid.dx_ (Grid.construct 2 0 1)).
  { unfold Grid.construct. change (2 <=? 0)%Z with false. cbn [Grid.dx_].
    apply Rmult_le_pos; [lra|]. apply Rlt_le, Rinv_0_lt_compat. lra. }
  cbn [Primitive.rho Primitive.p].
  split; [split; [exact Hwf|split; [exact Hdx|lra]]|].
  apply (primitives_after_initialize (Primitive.mk 1 0 1) (Primitive.mk 0.125 0 0.1) 0.5
           (Grid.construct 2 0 1) Hwf Hdx); cbn [Primitive.rho Primitive.p]; lra.
Defined.

(** ** The grid: how its operations compose *)

Lemma at_ext (l1 l2 : list Cell.t) :
  length l1 = length l2 ->
  (forall j, (0 <= j < Z.of_nat (length l1))%Z -> Grid.at_ l1 j = Grid.at_ l2 j) ->
  l1 = l2.
Proof.
  intros Hlen Hat. apply list_eq. intros j.
  destruct (Nat.lt_ge_cases j (length l1)) as [Hj|Hj].
  - pose proof (at_in_range l1 (Z.of_nat j)) as H1.
    pose proof (at_in_range l2 (Z.of_nat j)) as H2.
    rewrite Nat2Z.id in H1, H2. rewrite H1, H2 by lia.
    f_equal. apply Hat. lia.
  - rewrite !lookup_ge_None_2 by lia. reflexivity.
Qed.

(** The cells after [reflective] on a grid of at least two cells. *)
Lemma reflective_cells (g : Grid.t) :
  Grid.wf g -> (2 <= Grid.nx_ g)%Z ->
  let g' := snd (Grid.applyBoundaryConditions "reflective" g) in
  Grid.set_cells (Grid.cells_ g') g = g' /\
  length (Grid.cells_ g') = length (Grid.cells_ g) /\
  forall j, (0 <= j < Grid.nx_ g)%Z ->
    Grid.at_ (Grid.cells_ g') j =
    if decide (j = 0%Z \/ j = (Grid.nx_ g - 1)%Z)
    then Cell.mk (Cell.rho (Grid.at_ (Grid.cells_ g) j))
                 (- Cell.mom (Grid.at_ (Grid.cells_ g) j))
                 (Cell.energy (Grid.at_ (Grid.cells_ g) j))
    else Grid.at_ (Grid.cells_ g) j.
Proof.
  intros [Hpos Hlen] Hn g'. subst g'.
  rewrite applyBoundaryConditions_reflective by exact Hn.
  run_state. cbn [Grid.set_cells Grid.cells_ Grid.nx_ Grid.x0_ Grid.x1_ Grid.dx_].
  set (cs := Grid.cells_ g) in *. set (N := Grid.nx_ g) in *.
  set (c0 := Cell.mk (Cell.rho (Grid.at_ cs 0)) (- Cell.mom (Grid.at_ cs 0))
                     (Cell.energy (Grid.at_ cs 0))).
  assert (Hlast : Grid.at_ (<[Z.to_nat 0 := c0]> cs) (N - 1) = Grid.at_ cs (N - 1))
    by (apply at_insert_ne; lia).
  rewrite Hlast. set (cN := Cell.mk _ _ _).
  split; [reflexivity|]. split; [now rewrite !length_insert|].
  intros j Hj. destruct (decide (j = 0%Z \/ j = (N - 1)%Z)) as [[->| ->]|Hne].
  - rewrite at_insert_ne by lia. apply at_insert_eq. lia.
  - apply at_insert_eq. rewrite length_insert. lia.
  - rewrite !at_insert_ne by lia. reflexivity.
Qed.

(** X4.  Applying the same boundary condition twice gives the grid back:
    [reflective] negates the two edge momenta and negates them again, and
    every other kind changes nothing. *)
Theorem applyBoundaryConditions_twice (g : Grid.t) (bc : string) :
  Grid.wf g ->
  snd (Grid.applyBoundaryConditions bc (snd (Grid.applyBoundaryConditions bc g))) = g.
Proof.
  intros Hwf.
  destruct (String.eqb_spec bc "reflective") as [->|Hbc].
  2:{ rewrite (applyBoundaryConditions_other g) by exact Hbc. cbn [snd].
      now rewrite applyBoundaryConditions_other. }
  destruct (Z.lt_ge_cases (Grid.nx_ g) 2) as [Hn|Hn].
  { rewrite (applyBoundaryConditions_small g) by exact Hn. cbn [snd].
    now rewrite applyBoundaryConditions_small. }
  destruct (applyBoundaryConditions_wf g "reflective" Hwf) as (Hwf1 & Hnx1 & _).
  destruct (reflective_cells g Hwf Hn) as (Hg1 & Hlen1 & Hat1).
  set (g1 := snd (Grid.applyBoundaryConditions "reflective" g)) in *.
  assert (Hn1 : (2 <= Grid.nx_ g1)%Z) by lia.
  destruct (reflective_cells g1 Hwf1 Hn1) as (Hg2 & Hlen2 & Hat2).
  set (g2 := snd (Grid.applyBoundaryConditions "reflective" g1)) in *.
  destruct Hwf as [Hpos Hlen].
  assert (Hcells : Grid.cells_ g2 = Grid.cells_ g).
  { apply at_ext; [congruence|].
    intros j Hj. rewrite Hat2 by lia. rewrite Hnx1.
    destruct (decide (j = 0%Z \/ j = (Grid.nx_ g - 1)%Z)) as [Hedge|Hne].
    - rewrite Hat1 by lia. destruct (decide _) as [_|Hc]; [|contradiction].
      cbn [Cell.rho Cell.mom Cell.energy]. rewrite Ropp_involutive.
      now destruct (Grid.at_ (Grid.cells_ g) j).
    - rewrite Hat1 by lia. destruct (decide _) as [Hc|_]; [contradiction|reflexivity]. }
  rewrite <- Hg2, Hcells, <- Hg1. unfold Grid.set_cells. now destruct g.
Qed.

Lemma applyBoundaryConditions_twice_witness :
  let g := Grid.mk 2 0 1 0.5 [Cell.mk 1 3 2.5; Cell.mk 0.125 4 0.25] in
  Grid.wf g /\
  snd (Grid.applyBoundaryConditions "reflective"
         (snd (Grid.applyBoundaryConditions "reflective" g))) = g.
Proof.
  cbn zeta.
  assert (Hwf : Grid.wf (Grid.mk 2 0 1 0.5 [Cell.mk 1 3 2.5; Cell.mk 0.125 4 0.25]))
    by (split; cbn; lia).
  split; [exact Hwf|].
  apply (applyBoundaryConditions_twice
           (Grid.mk 2 0 1 0.5 [Cell.mk 1 3 2.5; Cell.mk 0.125 4 0.25]) "reflective" Hwf).
Defined.

(** X5.  Writes with [setCell] compose as assignments do: a second write
    to the same cell replaces the first, writes to different cells commute,
    and writing back the cell that [getCell] returned changes nothing. *)
Theorem setCell_compose (g : Grid.t) (i j : Z) (a b : Cell.t) :
  Grid.wf g ->
  snd (Grid.setCell i b (snd (Grid.setCell i a g))) = snd (Grid.setCell i b g) /\
  (i <> j ->
   snd (Grid.setCell j b (snd (Grid.setCell i a g)))
   = snd (Grid.setCell i a (snd (Grid.setCell j b g)))) /\
  snd (Grid.setCell i (fst (Grid.getCell i g)) g) = g.
Proof.
  intros [Hpos Hlen]. run_state.
  destruct ((0 <=? i)%Z && (i <? Grid.nx_ g)%Z) eqn:Hi;
    cbn [snd fst Grid.set_cells Grid.nx_ Grid.cells_]; rewrite ?Hi;
    cbn [snd fst Grid.set_cells Grid.nx_ Grid.cells_ Grid.x0_ Grid.x1_ Grid.dx_].
  - apply andb_true_iff in Hi as [Hi1%Z.leb_le Hi2%Z.ltb_lt].
    split; [now rewrite list_insert_insert_eq|]. split.
    + intros Hne.
      destruct ((0 <=? j)%Z && (j <? Grid.nx_ g)%Z) eqn:Hj;
        cbn [snd Grid.set_cells Grid.nx_ Grid.cells_ Grid.x0_ Grid.x1_ Grid.dx_];
        rewrite ?in_range_true by lia;
        cbn [snd Grid.set_cells Grid.nx_ Grid.cells_ Grid.x0_ Grid.x1_ Grid.dx_];
        [|reflexivity].
      apply andb_true_iff in Hj as [Hj1%Z.leb_le Hj2%Z.ltb_lt].
      unfold Grid.set_cells. cbn [Grid.nx_ Grid.cells_ Grid.x0_ Grid.x1_ Grid.dx_].
      f_equal. apply list_insert_insert_ne. lia.
    + rewrite list_insert_id; [apply set_cells_id|].
      apply at_in_range. lia.
  - split; [reflexivity|]. split; [|reflexivity].
    intros Hne.
    destruct ((0 <=? j)%Z && (j <? Grid.nx_ g)%Z) eqn:Hj;
      cbn [snd Grid.set_cells Grid.nx_ Grid.cells_ Grid.x0_ Grid.x1_ Grid.dx_];
      rewrite ?Hi; reflexivity.
Qed.

Lemma setCell_compose_witness :
  let g := Grid.mk 2 0 1 0.5 [Cell.mk 1 0 2.5; Cell.mk 0.125 0 0.25] in
  Grid.wf g /\
  snd (Grid.setCell 1 (Cell.mk 3 4 5) (snd (Grid.setCell 1 (Cell.mk 6 7 8) g)))
  = snd (Grid.setCell 1 (Cell.mk 3 4 5) g).
Proof.
  cbn zeta.
  assert (Hwf : Grid.wf (Grid.mk 2 0 1 0.5 [Cell.mk 1 0 2.5; Cell.mk 0.125 0 0.25]))
    by (split; cbn; lia).
  split; [exact Hwf|].
  apply (setCell_compose (Grid.mk 2 0 1 0.5 [Cell.mk 1 0 2.5; Cell.mk 0.125 0 0.25])
           1 0 (Cell.mk 6 7 8) (Cell.mk 3 4 5) Hwf).
Defined.

(** ** The variable transform, the other way round *)

(** X6.  For a cell whose density and whose ideal-gas pressure
    (gamma - 1) (E - m^2 / (2 rho)) are at least 1e-14, and gamma > 1, the
    conserved state is recovered from its primitive form:
    toConserved(toPrimitive(c)) = c. *)
Theorem conserved_roundtrip (c : Cell.t) (gamma : R) :
  1 < gamma ->
  1e-14 <= Cell.rho c ->
  1e-14 <= (gamma - 1) * (Cell.energy c - (Cell.mom c) ^ 2 / (2 * Cell.rho c)) ->
  Solver.primitiveToConserved (Solver.conservedToPrimitive c gamma) gamma = c.
Proof.
  destruct c as [rho m E]. cbn [Cell.rho Cell.mom Cell.energy].
  intros Hg Hrho Hp.
  unfold Solver.conservedToPrimitive, Solver.primitiveToConserved.
  cbn [Cell.rho Cell.mom Cell.energy Primitive.rho Primitive.u Primitive.p].
  rewrite (Std_max_Rmax rho), (Rmax_left rho) by lra.
  replace 1.0 with 1 by lra. replace 0.5 with (/ 2) by lra.
  replace ((gamma - 1) * (E - / 2 * rho * (m / rho) * (m / rho)))
    with ((gamma - 1) * (E - m ^ 2 / (2 * rho))) by (field; lra).
  rewrite Std_max_Rmax, Rmax_left by lra.
  f_equal; field; lra.
Qed.

Lemma conserved_roundtrip_witness :
  let c := Cell.mk 1 0 2.5 in
  (1 < 1.4 /\ 1e-14 <= Cell.rho c /\
   1e-14 <= (1.4 - 1) * (Cell.energy c - (Cell.mom c) ^ 2 / (2 * Cell.rho c))) /\
  Solver.primitiveToConserved (Solver.conservedToPrimitive c 1.4) 1.4 = c.
Proof.
  cbn zeta. cbn [Cell.rho Cell.mom Cell.energy].
  split; [lra|].
  apply (conserved_roundtrip (Cell.mk 1 0 2.5) 1.4); cbn [Cell.rho Cell.mom Cell.energy]; lra.
Defined.

(** ** One time step: what it keeps *)

(** X8.  For every boundary kind, [step] keeps the mesh: the class
    invariant, the number of cells and x0, x1, dx are as before; and it
    advances the time by exactly dt. *)
Theorem step_keeps_mesh (g : Grid.t) (time dt gamma : R) (bc : string) :
  Grid.wf g ->
  let g' := snd (Solver.step time dt gamma bc g) in
  Grid.wf g' /\
  Grid.nx_ g' = Grid.nx_ g /\ length (Grid.cells_ g') = length (Grid.cells_ g) /\
  Grid.x0_ g' = Grid.x0_ g /\ Grid.x1_ g' = Grid.x1_ g /\ Grid.dx_ g' = Grid.dx_ g /\
  fst (Solver.step time dt gamma bc g) = time + dt.
Proof.
  intros Hwf g'.
  destruct (applyBoundaryConditions_wf g bc Hwf) as (Hwf1 & Hnx & Hdx).
  assert (Hx : Grid.x0_ (snd (Grid.applyBoundaryConditions bc g)) = Grid.x0_ g /\
               Grid.x1_ (snd (Grid.applyBoundaryConditions bc g)) = Grid.x1_ g).
  { destruct (String.eqb_spec bc "reflective") as [->|Hbc];
      [|now rewrite applyBoundaryConditions_other].
    destruct (Z.lt_ge_cases (Grid.nx_ g) 2) as [Hn|Hn];
      [now rewrite applyBoundaryConditions_small|].
    rewrite applyBoundaryConditions_reflective by exact Hn. split; reflexivity. }
  subst g'. rewrite step_run by assumption.
  set (g1 := snd (Grid.applyBoundaryConditions bc g)) in *.
  destruct Hwf as [Hpos Hlen], Hwf1 as [Hpos1 Hlen1], Hx as [Hx0 Hx1].
  cbn [fst snd Grid.set_cells Grid.nx_ Grid.x0_ Grid.x1_ Grid.dx_ Grid.cells_].
  split; [split; cbn [Grid.set_cells Grid.nx_ Grid.cells_];
          [exact Hpos1|rewrite length_imap; exact Hlen1]|].
  rewrite length_imap.
  repeat split; try assumption. lia.
Qed.

Lemma step_keeps_mesh_witness :
  let g := Grid.mk 2 0 1 0.5 [Cell.mk 1 0 2.5; Cell.mk 0.125 0 0.25] in
  Grid.wf g /\ Grid.wf (snd (Solver.step 0 0.1 1.4 "reflective" g)).
Proof.
  cbn zeta.
  assert (Hwf : Grid.wf (Grid.mk 2 0 1 0.5 [Cell.mk 1 0 2.5; Cell.mk 0.125 0 0.25]))
    by (split; cbn; lia).
  split; [exact Hwf|].
  apply (step_keeps_mesh (Grid.mk 2 0 1 0.5 [Cell.mk 1 0 2.5; Cell.mk 0.125 0 0.25])
           0 0.1 1.4 "reflective" Hwf).
Defined.

(** ** One time step: steady states and walls *)

Lemma fluxes_lookup (g : Grid.t) (nx : Z) (gamma : R) (bc : string) (i : Z) :
  (0 <= i <= nx)%Z ->
  Solver.flux_at (fst (Solver.computeFluxes nx gamma bc g)) i
  = interfaceFlux (Grid.cells_ g) nx gamma bc i.
Proof.
  intros Hi. rewrite computeFluxes_run. cbn [fst].
  apply flux_at_lookup; [lia|].
  rewrite list_lookup_fmap, lookup_seqZ_lt by lia.
  cbn. do 2 f_equal. lia.
Qed.

Lemma at_uniform (cs : list Cell.t) (c : Cell.t) (j : Z) :
  (forall c', c' ∈ cs -> c' = c) ->
  (0 <= j < Z.of_nat (length cs))%Z -> Grid.at_ cs j = c.
Proof.
  intros Hall Hj. apply Hall.
  apply list_elem_of_lookup. exists (Z.to_nat j). now apply at_in_range.
Qed.

(** Between two equal states, and between a state at rest and its mirror
    image, every interface of a uniform grid carries the same flux. *)
Lemma uniform_interfaceFlux (cs : list Cell.t) (c : Cell.t) (gamma : R) (bc : string)
    (i : Z) :
  (forall c', c' ∈ cs -> c' = c) ->
  (0 < Z.of_nat (length cs))%Z ->
  bc <> "reflective"%string \/ Cell.mom c = 0 ->
  (0 <= i <= Z.of_nat (length cs))%Z ->
  interfaceFlux cs (Z.of_nat (length cs)) gamma bc i =
  Solver.computeHLLFlux (Solver.conservedToPrimitive c gamma)
                        (Solver.conservedToPrimitive c gamma) gamma.
Proof.
  intros Hall Hpos Hbc Hi.
  assert (Hmirror : (bc =? "reflective")%string = true ->
            Primitive.mk (Primitive.rho (Solver.conservedToPrimitive c gamma))
                         (- Primitive.u (Solver.conservedToPrimitive c gamma))
                         (Primitive.p (Solver.conservedToPrimitive c gamma))
            = Solver.conservedToPrimitive c gamma).
  { intros Hrefl. apply String.eqb_eq in Hrefl.
    destruct Hbc as [Hbc|Hm]; [contradiction|].
    unfold Solver.conservedToPrimitive.
    cbn [Primitive.rho Primitive.u Primitive.p]. rewrite Hm.
    unfold Rdiv. rewrite Rmult_0_l, Ropp_0. reflexivity. }
  unfold interfaceFlux, Solver.interfaceStates.
  destruct (Z.eqb_spec i 0) as [->|Hi0].
  - rewrite (at_uniform cs c 0 Hall) by lia.
    destruct (bc =? "reflective")%string eqn:Hrefl; cbn [fst snd];
      [rewrite Hmirror by reflexivity|]; reflexivity.
  - destruct (Z.eqb_spec i (Z.of_nat (length cs))) as [->|HiN].
    + rewrite (at_uniform cs c _ Hall) by lia.
      destruct (bc =? "reflective")%string eqn:Hrefl; cbn [fst snd];
        [rewrite Hmirror by reflexivity|]; reflexivity.
    + rewrite !(at_uniform cs c _ Hall) by lia. reflexivity.
Qed.

(** The boundary conditions leave a uniform grid as it is (under
    [reflective], when its momentum is zero). *)
Lemma uniform_bc (g : Grid.t) (c : Cell.t) (bc : string) :
  Grid.wf g ->
  (forall c', c' ∈ Grid.cells_ g -> c' = c) ->
  bc <> "reflective"%string \/ Cell.mom c = 0 ->
  snd (Grid.applyBoundaryConditions bc g) = g.
Proof.
  intros Hwf Hall Hbc.
  destruct (String.eqb_spec bc "reflective") as [->|Hne];
    [|now rewrite applyBoundaryConditions_other].
  destruct Hbc as [Hbc|Hm]; [contradiction|].
  destruct (Z.lt_ge_cases (Grid.nx_ g) 2) as [Hn|Hn];
    [now rewrite applyBoundaryConditions_small|].
  destruct (reflective_cells g Hwf Hn) as (Hset & Hlen1 & Hat).
  destruct Hwf as [Hpos Hlen].
  assert (Hcells : Grid.cells_ (snd (Grid.applyBoundaryConditions "reflective" g))
                   = Grid.cells_ g).
  { apply at_ext; [exact Hlen1|]. intros j Hj.
    rewrite Hat by lia. destruct (decide _) as [_|_]; [|reflexivity].
    rewrite (at_uniform (Grid.cells_ g) c j Hall) by lia.
    destruct c as [r m e]. cbn [Cell.mom] in Hm. subst m.
    cbn [Cell.rho Cell.mom Cell.energy]. now rewrite Ropp_0. }
  rewrite <- Hset, Hcells. apply set_cells_id.
Qed.

(** On a uniform grid all the flux differences vanish. *)
Lemma uniform_update (g : Grid.t) (c : Cell.t) (dt gamma : R) (bc : string) :
  Grid.wf g ->
  (forall c', c' ∈ Grid.cells_ g -> c' = c) ->
  bc <> "reflective"%string \/ Cell.mom c = 0 ->
  imap (fun j c0 => Solver.updatedCell c0
                      (fst (Solver.computeFluxes (Grid.nx_ g) gamma bc g))
                      (Z.of_nat j) dt (Grid.dx_ g)) (Grid.cells_ g)
  = Grid.cells_ g.
Proof.
  intros [Hpos Hlen] Hall Hbc.
  apply at_ext; [apply length_imap|]. rewrite length_imap. intros j Hj.
  assert (Hat : Grid.at_ (imap (fun j c0 => Solver.updatedCell c0
                     (fst (Solver.computeFluxes (Grid.nx_ g) gamma bc g))
                     (Z.of_nat j) dt (Grid.dx_ g)) (Grid.cells_ g)) j
                = Solver.updatedCell (Grid.at_ (Grid.cells_ g) j)
                    (fst (Solver.computeFluxes (Grid.nx_ g) gamma bc g)) j dt (Grid.dx_ g)).
  { apply at_lookup; [lia|].
    rewrite list_lookup_imap, at_in_range by lia. cbn. do 2 f_equal. lia. }
  rewrite Hat. unfold Solver.updatedCell.
  rewrite !fluxes_lookup by lia. rewrite <- Hlen.
  rewrite !(uniform_interfaceFlux _ c gamma bc) by (assumption || lia).
  destruct (Grid.at_ (Grid.cells_ g) j) as [r m e].
  cbn [Cell.rho Cell.mom Cell.energy]. f_equal; ring.
Qed.

(** X9.  A uniform state is steady: when every cell holds the same
    conserved state, gamma > 1 and dx is not zero, [step] returns the grid
    unchanged, under every boundary kind but [reflective], and under
    [reflective] too when the gas is at rest (zero momentum). *)
Theorem uniform_state_steady (g : Grid.t) (c : Cell.t) (time dt gamma : R) (bc : string) :
  Grid.wf g -> 1 < gamma -> Grid.dx_ g <> 0 ->
  (forall c', c' ∈ Grid.cells_ g -> c' = c) ->
  bc <> "reflective"%string \/ Cell.mom c = 0 ->
  snd (Solver.step time dt gamma bc g) = g.
Proof.
  intros Hwf _ _ Hall Hbc.
  assert (Hg1 : snd (Grid.applyBoundaryConditions bc g) = g)
    by now apply (uniform_bc g c).
  rewrite step_run; rewrite Hg1; [|reflexivity|exact Hwf].
  cbn [snd]. rewrite (uniform_update g c) by assumption.
  apply set_cells_id.
Qed.

Lemma uniform_state_steady_witness :
  let g := Grid.mk 2 0 1 0.5 [Cell.mk 1 0.5 2.5; Cell.mk 1 0.5 2.5] in
  (Grid.wf g /\ 1 < 1.4 /\ Grid.dx_ g <> 0) /\
  snd (Solver.step 0 0.1 1.4 "outflow" g) = g.
Proof.
  cbn zeta.
  assert (Hwf : Grid.wf (Grid.mk 2 0 1 0.5 [Cell.mk 1 0.5 2.5; Cell.mk 1 0.5 2.5]))
    by (split; cbn; lia).
  cbn [Grid.dx_].
  split; [split; [exact Hwf|lra]|].
  apply (uniform_state_steady (Grid.mk 2 0 1 0.5 [Cell.mk 1 0.5 2.5; Cell.mk 1 0.5 2.5])
           (Cell.mk 1 0.5 2.5) 0 0.1 1.4 "outflow" Hwf).
  - lra.
  - cbn [Grid.dx_]. lra.
  - cbn [Grid.cells_]. intros c' Hc'.
    repeat (apply elem_of_cons in Hc' as [->|Hc']; [reflexivity|]).
    now apply elem_of_nil in Hc'.
  - left. discriminate.
Defined.

(** At a wall the left and right states mirror each other: the HLL flux
    then carries neither mass nor energy. *)
Lemma wall_flux (rho u p gamma : R) :
  let F := Solver.computeHLLFlux (Primitive.mk rho (- u) p) (Primitive.mk rho u p) gamma in
  Flux.rho F = 0 /\ Flux.eng F = 0.
Proof.
  cbn zeta. unfold Solver.computeHLLFlux, Solver.waveSL, Solver.waveSR.
  assert (Ha : Solver.soundSpeed (Primitive.mk rho (- u) p) gamma
               = Solver.soundSpeed (Primitive.mk rho u p) gamma) by reflexivity.
  rewrite Ha. pose proof (soundSpeed_nonneg (Primitive.mk rho u p) gamma) as Ha0.
  set (a := Solver.soundSpeed (Primitive.mk rho u p) gamma) in *.
  unfold Solver.primitiveToConserved.
  cbn [Cell.rho Cell.mom Cell.energy Primitive.rho Primitive.u Primitive.p].
  rewrite Std_min_Rmin, Std_max_Rmax.
  assert (HS : Rmin (- u - a) (u - a) = - Rmax (- u + a) (u + a)).
  { unfold Rmin, Rmax.
    destruct (Rle_dec (- u - a) (u - a)), (Rle_dec (- u + a) (u + a)); lra. }
  rewrite HS. set (S := Rmax (- u + a) (u + a)).
  assert (HSl : - u + a <= S) by apply Rmax_l.
  assert (HSr : u + a <= S) by apply Rmax_r.
  destruct (Rge_dec (- S) 0.0) as [Hge|Hlt].
  - assert (Hu : u = 0) by lra. subst u.
    cbn [Flux.rho Flux.eng]. split; ring.
  - destruct (Rle_dec S 0.0) as [Hle|Hgt]; [lra|].
    cbn [Flux.rho Flux.eng]. split; ring.
Qed.

Lemma at_cons_succ (c : Cell.t) (l : list Cell.t) (j : Z) :
  (0 <= j)%Z -> Grid.at_ (c :: l) (Z.succ j) = Grid.at_ l j.
Proof.
  intros Hj. unfold Grid.at_.
  destruct (Z.leb_spec 0 (Z.succ j)); [|lia]. destruct (Z.leb_spec 0 j); [|lia].
  now rewrite Z2Nat.inj_succ by lia.
Qed.

(** Two vectors that agree cell by cell on a component have the same sum
    of it. *)
Lemma total_pointwise (proj : Cell.t -> R) (l1 l2 : list Cell.t) :
  length l1 = length l2 ->
  (forall j, (0 <= j < Z.of_nat (length l1))%Z ->
             proj (Grid.at_ l1 j) = proj (Grid.at_ l2 j)) ->
  total proj l1 = total proj l2.
Proof.
  revert l2. induction l1 as [|c1 l1 IH]; intros [|c2 l2] Hlen Hat;
    try discriminate; [reflexivity|].
  unfold total in *. cbn [foldr]. f_equal.
  - apply (Hat 0%Z). cbn [length]. lia.
  - apply IH; [now injection Hlen|].
    intros j Hj. specialize (Hat (Z.succ j)).
    rewrite !at_cons_succ in Hat by lia. apply Hat. cbn [length]. lia.
Qed.

(** The boundary conditions change no density and no energy. *)
Lemma applyBoundaryConditions_totals (g : Grid.t) (bc : string) :
  Grid.wf g ->
  total Cell.rho (Grid.cells_ (snd (Grid.applyBoundaryConditions bc g)))
  = total Cell.rho (Grid.cells_ g) /\
  total Cell.energy (Grid.cells_ (snd (Grid.applyBoundaryConditions bc g)))
  = total Cell.energy (Grid.cells_ g).
Proof.
  intros Hwf.
  destruct (String.eqb_spec bc "reflective") as [->|Hne];
    [|now rewrite applyBoundaryConditions_other].
  destruct (Z.lt_ge_cases (Grid.nx_ g) 2) as [Hn|Hn];
    [now rewrite applyBoundaryConditions_small|].
  destruct (reflective_cells g Hwf Hn) as (_ & Hlen1 & Hat).
  destruct Hwf as [Hpos Hlen].
  split; apply total_pointwise; try exact Hlen1;
    intros j Hj; rewrite Hat by lia; destruct (decide _); reflexivity.
Qed.

(** X10.  Reflective walls are closed: for gamma > 1 and dx not zero, one
    call of [step] under [reflective] leaves the total mass and the total
    energy of the grid unchanged, because the fluxes at the two walls carry
    neither. *)
Theorem reflective_walls_conserve (g : Grid.t) (time dt gamma : R) :
  Grid.wf g -> 1 < gamma -> Grid.dx_ g <> 0 ->
  let g' := snd (Solver.step time dt gamma "reflective" g) in
  let flux := fst (Solver.computeFluxes (Grid.nx_ g) gamma "reflective"
                     (snd (Grid.applyBoundaryConditions "reflective" g))) in
  (Flux.rho (Solver.flux_at flux 0) = 0 /\ Flux.eng (Solver.flux_at flux 0) = 0 /\
   Flux.rho (Solver.flux_at flux (Grid.nx_ g)) = 0 /\
   Flux.eng (Solver.flux_at flux (Grid.nx_ g)) = 0) /\
  total Cell.rho (Grid.cells_ g') = total Cell.rho (Grid.cells_ g) /\
  total Cell.energy (Grid.cells_ g') = total Cell.energy (Grid.cells_ g).
Proof.
  intros Hwf _ _ g' flux.
  destruct (applyBoundaryConditions_wf g "reflective" Hwf) as (Hwf1 & Hnx & Hdx).
  destruct (applyBoundaryConditions_totals g "reflective" Hwf) as [Hrho Heng].
  set (g1 := snd (Grid.applyBoundaryConditions "reflective" g)) in *.
  assert (Hwalls : Flux.rho (Solver.flux_at flux 0) = 0 /\
                   Flux.eng (Solver.flux_at flux 0) = 0 /\
                   Flux.rho (Solver.flux_at flux (Grid.nx_ g)) = 0 /\
                   Flux.eng (Solver.flux_at flux (Grid.nx_ g)) = 0).
  { destruct Hwf as [Hpos _]. subst flux.
    rewrite !fluxes_lookup by lia.
    unfold interfaceFlux, Solver.interfaceStates.
    destruct (Z.eqb_spec (Grid.nx_ g) 0) as [Hc|_]; [lia|].
    change (0 =? 0)%Z with true. rewrite (Z.eqb_refl (Grid.nx_ g)).
    change ("reflective" =? "reflective")%string with true.
    cbn [fst snd].
    destruct (Solver.conservedToPrimitive (Grid.at_ (Grid.cells_ g1) 0) gamma)
      as [r0 u0 p0].
    destruct (Solver.conservedToPrimitive (Grid.at_ (Grid.cells_ g1) (Grid.nx_ g - 1)) gamma)
      as [rN uN pN].
    cbn [Primitive.rho Primitive.u Primitive.p].
    destruct (wall_flux r0 u0 p0 gamma) as [H1 H2].
    pose proof (wall_flux rN (- uN) pN gamma) as [H3 H4].
    rewrite Ropp_involutive in H3, H4.
    repeat split; assumption. }
  split; [exact Hwalls|].
  destruct Hwalls as (H1 & H2 & H3 & H4).
  assert (Hstep : Grid.cells_ g' =
            imap (fun j c => Solver.updatedCell c flux (Z.of_nat j) dt (Grid.dx_ g))
                 (Grid.cells_ g1)).
  { subst g'. rewrite step_run by assumption. reflexivity. }
  destruct Hwf1 as [Hpos1 Hlen1]. rewrite Hnx in Hlen1.
  rewrite Hstep, <- Hrho, <- Heng.
  rewrite (updated_total Cell.rho Flux.rho), (updated_total Cell.energy Flux.eng)
    by (intros c j; reflexivity).
  rewrite Hlen1, H1, H2, H3, H4. split; ring.
Qed.

Lemma reflective_walls_conserve_witness :
  let g := Grid.mk 2 0 1 0.5 [Cell.mk 1 0.5 2.5; Cell.mk 0.125 0 0.25] in
  (Grid.wf g /\ 1 < 1.4 /\ Grid.dx_ g <> 0) /\
  total Cell.rho (Grid.cells_ (snd (Solver.step 0 0.1 1.4 "reflective" g)))
  = total Cell.rho (Grid.cells_ g).
Proof.
  cbn zeta.
  assert (Hwf : Grid.wf (Grid.mk 2 0 1 0.5 [Cell.mk 1 0.5 2.5; Cell.mk 0.125 0 0.25]))
    by (split; cbn; lia).
  cbn [Grid.dx_].
  split; [split; [exact Hwf|lra]|].
  apply (reflective_walls_conserve
           (Grid.mk 2 0 1 0.5 [Cell.mk 1 0.5 2.5; Cell.mk 0.125 0 0.25]) 0 0.1 1.4 Hwf);
    cbn [Grid.dx_]; lra.
Defined.

(** ** The driver: what a run keeps and writes *)

Lemma step_geometry (g : Grid.t) (time dt gamma : R) (bc : string) :
  Grid.wf g ->
  Grid.nx_ (snd (Solver.step time dt gamma bc g)) = Grid.nx_ g /\
  Grid.dx_ (snd (Solver.step time dt gamma bc g)) = Grid.dx_ g.
Proof.
  intros Hwf.
  destruct (applyBoundaryConditions_wf g bc Hwf) as (Hwf1 & Hnx & Hdx).
  rewrite step_run by assumption.
  cbn [snd Grid.set_cells Grid.nx_ Grid.dx_]. now split.
Qed.

(** One pass through the loop, in closed form. *)
Lemma loopBody_run (p : Params.t) (l : Solver.Locals) (w : Solver.World) :
  let dt := clampedDt p l w in
  let g' := snd (Solver.step (Solver.time l) dt (Params.gamma p) (Params.bc_type p)
                   (Solver.grid w)) in
  let time' := Solver.time l + dt in
  let step_count' := (Solver.step_count l + 1)%Z in
  Solver.loopBody p l w =
  if Rge_dec (Solver.time_since_last_output l + dt) (Params.output_dt p)
  then (Solver.mkLocals time' step_count' (Solver.snapshot_idx l + 1)%Z 0.0,
        Solver.mkWorld g' (Progress step_count' time' dt
                           :: Snapshot (Solver.snapshot_idx l) g' time'
                           :: Solver.trace w))
  else (Solver.mkLocals time' step_count' (Solver.snapshot_idx l)
          (Solver.time_since_last_output l + dt),
        Solver.mkWorld g' (Solver.trace w)).
Proof.
  cbn zeta. unfold Solver.loopBody, clampedDt.
  rewrite bind_run.
  set (dt0 := fst (Solver.onGrid (Solver.computeCFL (Params.cfl p) (Params.gamma p)) w)).
  change (fst (Solver.computeCFL (Params.cfl p) (Params.gamma p) (Solver.grid w))) with dt0.
  set (dt := if Rgt_dec (Solver.time l + dt0) (Params.t_final p) then _ else _).
  rewrite bind_run.
  destruct (Rge_dec (Solver.time_since_last_output l + dt) (Params.output_dt p));
    reflexivity.
Qed.

Lemma loopBody_mesh (p : Params.t) (l : Solver.Locals) (w : Solver.World) :
  Grid.wf (Solver.grid w) ->
  Grid.wf (Solver.grid (snd (Solver.loopBody p l w))) /\
  Grid.nx_ (Solver.grid (snd (Solver.loopBody p l w))) = Grid.nx_ (Solver.grid w) /\
  Grid.dx_ (Solver.grid (snd (Solver.loopBody p l w))) = Grid.dx_ (Solver.grid w).
Proof.
  intros Hwf. rewrite loopBody_run.
  destruct (Rge_dec _ _); cbn [snd Solver.grid];
    (split; [now apply step_wf|now apply step_geometry]).
Qed.

Lemma while_mesh (fuel : nat) (p : Params.t) (l : Solver.Locals) (w : Solver.World) :
  Grid.wf (Solver.grid w) ->
  Grid.wf (Solver.grid (snd (Solver.while_ fuel p l w))) /\
  Grid.nx_ (Solver.grid (snd (Solver.while_ fuel p l w))) = Grid.nx_ (Solver.grid w) /\
  Grid.dx_ (Solver.grid (snd (Solver.while_ fuel p l w))) = Grid.dx_ (Solver.grid w).
Proof.
  revert l w. induction fuel as [|fuel IH]; intros l w Hwf; cbn [Solver.while_];
    destruct (Rlt_dec (Solver.time l) (Params.t_final p)); try (now split).
  rewrite bind_run.
  destruct (loopBody_mesh p l w Hwf) as (Hwf1 & Hnx1 & Hdx1).
  destruct (IH (fst (Solver.loopBody p l w)) (snd (Solver.loopBody p l w)) Hwf1)
    as (Hwf2 & Hnx2 & Hdx2).
  split; [exact Hwf2|]. split; congruence.
Qed.

(** X11.  The driver never changes the mesh: whatever the parameters and
    however many passes of the loop are run, the grid that [runSimulation]
    leaves satisfies the class invariant and has the number of cells and the
    cell width it started with. *)
Theorem runSimulation_keeps_mesh (fuel : nat) (p : Params.t) (w0 : Solver.World) :
  Grid.wf (Solver.grid w0) ->
  let w' := snd (Solver.runSimulation fuel p w0) in
  Grid.wf (Solver.grid w') /\
  Grid.nx_ (Solver.grid w') = Grid.nx_ (Solver.grid w0) /\
  Grid.dx_ (Solver.grid w') = Grid.dx_ (Solver.grid w0).
Proof.
  intros Hwf w'. subst w'. unfold Solver.runSimulation.
  rewrite !bind_run.
  set (w1 := snd (Solver.emit _ (snd (Solver.emit _ (snd (Solver.emit _ w0)))))).
  assert (Hw1 : Solver.grid w1 = Solver.grid w0) by reflexivity.
  assert (Hwf1 : Grid.wf (Solver.grid w1)) by now rewrite Hw1.
  destruct (while_mesh fuel p Solver.initialLocals w1 Hwf1) as (Hwf2 & Hnx2 & Hdx2).
  rewrite Hw1 in Hnx2, Hdx2.
  destruct (fst (Solver.while_ fuel p Solver.initialLocals w1)); [|now split].
  rewrite !bind_run. cbn [snd Solver.emit modify Solver.grid]. now split.
Qed.

Lemma runSimulation_keeps_mesh_witness :
  let p := Params.mk 2 0 1 0.2 0.8 1.4 "data/outputs" 0.01 1 0 1 0.125 0 0.1 0.5 "outflow" in
  let w0 := Solver.mkWorld (Grid.mk 2 0 1 0.5 [Cell.mk 1 0 2.5; Cell.mk 0.125 0 0.25]) [] in
  Grid.wf (Solver.grid w0) /\
  Grid.wf (Solver.grid (snd (Solver.runSimulation 3 p w0))).
Proof.
  cbn zeta.
  assert (Hwf : Grid.wf (Solver.grid
            (Solver.mkWorld (Grid.mk 2 0 1 0.5 [Cell.mk 1 0 2.5; Cell.mk 0.125 0 0.25]) [])))
    by (split; cbn; lia).
  split; [exact Hwf|].
  apply (runSimulation_keeps_mesh 3
           (Params.mk 2 0 1 0.2 0.8 1.4 "data/outputs" 0.01 1 0 1 0.125 0 0.1 0.5 "outflow")
           (Solver.mkWorld (Grid.mk 2 0 1 0.5 [Cell.mk 1 0 2.5; Cell.mk 0.125 0 0.25]) [])
           Hwf).
Defined.

Lemma snapshotIndices_app (a b : list Event) :
  snapshotIndices (a ++ b) = snapshotIndices a ++ snapshotIndices b.
Proof.
  induction a as [|e a IH]; [reflexivity|].
  destruct e; cbn [app snapshotIndices]; now rewrite IH.
Qed.

(** The snapshots that the loop writes continue the numbering. *)
Lemma while_snapshots (fuel : nat) (p : Params.t) (l : Solver.Locals) (w : Solver.World) :
  exists (events : list Event) (k : nat),
    Solver.trace (snd (Solver.while_ fuel p l w)) = events ++ Solver.trace w /\
    rev (snapshotIndices events) = seqZ (Solver.snapshot_idx l) (Z.of_nat k) /\
    forall l', fst (Solver.while_ fuel p l w) = Some l' ->
               Solver.snapshot_idx l' = (Solver.snapshot_idx l + Z.of_nat k)%Z.
Proof.
  revert l w. induction fuel as [|fuel IH]; intros l w; cbn [Solver.while_];
    destruct (Rlt_dec (Solver.time l) (Params.t_final p)) as [Hlt|Hge].
  - exists [], 0%nat. split; [reflexivity|]. split; [reflexivity|]. discriminate.
  - exists [], 0%nat. split; [reflexivity|]. split; [reflexivity|].
    intros l' [= <-]. lia.
  - rewrite bind_run.
    destruct (IH (fst (Solver.loopBody p l w)) (snd (Solver.loopBody p l w)))
      as (events & k & Htrace & Hidx & Hfin).
    rewrite loopBody_run in Htrace, Hidx, Hfin |- *. cbn zeta in *.
    destruct (Rge_dec _ _) as [Hout|Hno]; cbn [fst snd Solver.trace Solver.snapshot_idx] in *.
    + set (e1 := Progress _ _ _) in *. set (e2 := Snapshot _ _ _) in *.
      exists (events ++ [e1; e2]), (S k). split; [|split].
      * rewrite Htrace, <- app_assoc. reflexivity.
      * rewrite snapshotIndices_app, rev_app_distr. subst e1 e2.
        cbn [snapshotIndices rev app]. rewrite Hidx, seqZ_succ.
        reflexivity.
      * intros l' Hl'. rewrite (Hfin l' Hl'). lia.
    + exists events, k. split; [exact Htrace|]. split; [exact Hidx|exact Hfin].
  - exists [], 0%nat. split; [reflexivity|]. split; [reflexivity|].
    intros l' [= <-]. lia.
Qed.

(** The indices of the snapshots of a whole run, oldest first. *)
Lemma runSimulation_indices (fuel : nat) (p : Params.t) (w0 : Solver.World) :
  exists (events : list Event) (n : nat),
    Solver.trace (snd (Solver.runSimulation fuel p w0)) = events ++ Solver.trace w0 /\
    rev (snapshotIndices events) = seqZ 0 (Z.of_nat n) /\
    (1 <= n)%nat /\
    (fst (Solver.runSimulation fuel p w0) = Some tt -> (2 <= n)%nat).
Proof.
  unfold Solver.runSimulation. rewrite !bind_run.
  set (w1 := snd (Solver.emit _ (snd (Solver.emit _ (snd (Solver.emit _ w0)))))).
  destruct (while_snapshots fuel p Solver.initialLocals w1)
    as (events & k & Htrace & Hidx & Hfin).
  cbn [Solver.snapshot_idx Solver.initialLocals] in Hidx, Hfin.
  assert (Hw1 : Solver.trace w1 =
            [Snapshot 0 (Solver.grid w0) 0.0;
             Log (String.append "Output directory: " (Params.output_dir p));
             Log "Starting Simulation..."] ++ Solver.trace w0) by reflexivity.
  set (r := Solver.while_ fuel p Solver.initialLocals w1) in *.
  destruct (fst r) as [l'|] eqn:Hr.
  - rewrite !bind_run. cbn [fst snd Solver.emit modify Solver.trace Solver.grid ret].
    specialize (Hfin l' eq_refl).
    set (e1 := Log "Simulation Complete.").
    set (e2 := Snapshot _ _ _).
    assert (Hall : rev (snapshotIndices (e1 :: e2 :: events ++
                      [Snapshot 0 (Solver.grid w0) 0.0;
                       Log (String.append "Output directory: " (Params.output_dir p));
                       Log "Starting Simulation..."]))
                   = seqZ 0 (Z.of_nat (S (S k)))).
    { subst e1 e2. cbn [snapshotIndices]. rewrite snapshotIndices_app.
      cbn [snapshotIndices rev]. rewrite rev_app_distr. cbn [rev app].
      rewrite Hidx, Hfin.
      replace (Z.of_nat (S (S k))) with (1 + (Z.of_nat k + 1))%Z by lia.
      rewrite (seqZ_app 0 1) by lia. rewrite (seqZ_app (0 + 1)) by lia.
      reflexivity. }
    eexists _, (S (S k)). split; [|split; [exact Hall|]].
    + rewrite Htrace, Hw1. rewrite !app_comm_cons, app_assoc. reflexivity.
    + split; [lia|]. intros _. lia.
  - cbn [fst snd ret].
    assert (Hall : rev (snapshotIndices (events ++
                      [Snapshot 0 (Solver.grid w0) 0.0;
                       Log (String.append "Output directory: " (Params.output_dir p));
                       Log "Starting Simulation..."]))
                   = seqZ 0 (Z.of_nat (S k))).
    { rewrite snapshotIndices_app. cbn [snapshotIndices]. rewrite rev_app_distr.
      cbn [rev app]. rewrite Hidx.
      replace (Z.of_nat (S k)) with (1 + Z.of_nat k)%Z by lia.
      rewrite (seqZ_app 0 1) by lia. reflexivity. }
    eexists _, (S k). split; [|split; [exact Hall|]].
    + rewrite Htrace, Hw1. rewrite app_assoc. reflexivity.
    + split; [lia|]. discriminate.
Qed.

Lemma rev_seqZ_facts (l : list Z) (n : Z) :
  rev l = seqZ 0 n -> NoDup l /\ forall i, i ∈ l -> (0 <= i < n)%Z.
Proof.
  intros Hl. rewrite <- (rev_involutive l), Hl. split.
  - apply NoDup_ListNoDup, List.NoDup_rev, NoDup_ListNoDup, NoDup_seqZ.
  - intros i Hi. apply list_elem_of_In, in_rev, list_elem_of_In in Hi.
    apply elem_of_seqZ in Hi. lia.
Qed.

(** X12.  The snapshots of a run are numbered consecutively from 0 in the
    order in which they are written: whatever the parameters and the number
    of passes, the indices handed to [formatSnapshotName] are 0, 1, ..., n - 1
    with no gap and no repetition; a run that ends has written at least the
    initial and the final snapshot. *)
Theorem runSimulation_snapshot_numbering (fuel : nat) (p : Params.t) (w0 : Solver.World) :
  exists (events : list Event) (n : nat),
    Solver.trace (snd (Solver.runSimulation fuel p w0)) = events ++ Solver.trace w0 /\
    rev (snapshotIndices events) = seqZ 0 (Z.of_nat n) /\
    NoDup (snapshotIndices events) /\
    (1 <= n)%nat /\
    (fst (Solver.runSimulation fuel p w0) = Some tt -> (2 <= n)%nat).
Proof.
  destruct (runSimulation_indices fuel p w0) as (events & n & Htrace & Hidx & Hn & Hend).
  exists events, n.
  split; [exact Htrace|]. split; [exact Hidx|].
  split; [|split; assumption].
  now destruct (rev_seqZ_facts _ _ Hidx).
Qed.

(** ** The driver: when the loop ends at once and when it never ends *)

(** X13.  When [t_final <= 0] the loop is not entered: for every amount of
    fuel the run ends, the grid is left as it was, and the output is the
    two start messages, the snapshots 0 and 1 of the initial grid at time 0,
    and the closing message. *)
Theorem runSimulation_no_pass (fuel : nat) (p : Params.t) (w0 : Solver.World) :
  Params.t_final p <= 0 ->
  Solver.runSimulation fuel p w0 =
  (Some tt,
   Solver.mkWorld (Solver.grid w0)
     (Log "Simulation Complete."
      :: Snapshot 1 (Solver.grid w0) 0.0
      :: Snapshot 0 (Solver.grid w0) 0.0
      :: Log (String.append "Output directory: " (Params.output_dir p))
      :: Log "Starting Simulation..."
      :: Solver.trace w0)).
Proof.
  intros Hfinal. unfold Solver.runSimulation. rewrite !bind_run.
  rewrite while_exit by (cbn [Solver.time Solver.initialLocals]; lra).
  reflexivity.
Qed.

Lemma runSimulation_no_pass_witness :
  let p := Params.mk 2 0 1 0 0.8 1.4 "data/outputs" 0.01 1 0 1 0.125 0 0.1 0.5 "outflow" in
  let w0 := Solver.mkWorld (Grid.mk 2 0 1 0.5 [Cell.mk 1 0 2.5; Cell.mk 0.125 0 0.25]) [] in
  Params.t_final p <= 0 /\ fst (Solver.runSimulation 0 p w0) = Some tt.
Proof.
  cbn zeta. cbn [Params.t_final]. split; [lra|].
  rewrite (runSimulation_no_pass 0
             (Params.mk 2 0 1 0 0.8 1.4 "data/outputs" 0.01 1 0 1 0.125 0 0.1 0.5 "outflow")
             (Solver.mkWorld (Grid.mk 2 0 1 0.5 [Cell.mk 1 0 2.5; Cell.mk 0.125 0 0.25]) []));
    [reflexivity|cbn [Params.t_final]; lra].
Defined.

(** The divisor of [computeCFL] is at least 1e-9, whatever the grid. *)
Lemma computeCFL_divisor (g : Grid.t) (cfl gamma : R) :
  exists m, 1e-9 <= m /\ fst (Solver.computeCFL cfl gamma g) = cfl * Grid.dx_ g / m.
Proof.
  unfold Solver.computeCFL. run_state.
  eexists. split; [|reflexivity].
  destruct (Rlt_dec _ 1e-9); lra.
Qed.

Lemma while_stalls (fuel : nat) (p : Params.t) (l : Solver.Locals) (w : Solver.World) :
  Grid.wf (Solver.grid w) ->
  Params.cfl p * Grid.dx_ (Solver.grid w) <= 0 ->
  Solver.time l < Params.t_final p ->
  fst (Solver.while_ fuel p l w) = None.
Proof.
  revert l w. induction fuel as [|fuel IH]; intros l w Hwf Hsign Hlt; cbn [Solver.while_];
    destruct (Rlt_dec (Solver.time l) (Params.t_final p)) as [_|Hc]; try lra.
  - reflexivity.
  - rewrite bind_run.
    destruct (loopBody_mesh p l w Hwf) as (Hwf1 & _ & Hdx1).
    apply IH; [exact Hwf1|now rewrite Hdx1|].
    rewrite loopBody_time. unfold clampedDt.
    destruct (computeCFL_divisor (Solver.grid w) (Params.cfl p) (Params.gamma p))
      as (m & Hm & Hdt).
    rewrite Hdt.
    assert (Hle : Params.cfl p * Grid.dx_ (Solver.grid w) / m <= 0).
    { unfold Rdiv. rewrite <- (Rmult_0_l (/ m)).
      apply Rmult_le_compat_r; [|exact Hsign].
      left. apply Rinv_0_lt_compat. lra. }
    destruct (Rgt_dec _ _); lra.
Qed.

(** X14.  When [cfl * dx <= 0] (a zero or negative CFL number, or an empty
    domain x0 = x1) and [t_final > 0], the time never advances and the loop
    of the driver never exits: no amount of fuel lets the run end. *)
Theorem runSimulation_never_ends (fuel : nat) (p : Params.t) (w0 : Solver.World) :
  Grid.wf (Solver.grid w0) ->
  Params.cfl p * Grid.dx_ (Solver.grid w0) <= 0 ->
  0 < Params.t_final p ->
  fst (Solver.runSimulation fuel p w0) = None.
Proof.
  intros Hwf Hsign Hfinal. unfold Solver.runSimulation. rewrite !bind_run.
  set (w1 := snd (Solver.emit _ (snd (Solver.emit _ (snd (Solver.emit _ w0)))))).
  assert (Hstall : fst (Solver.while_ fuel p Solver.initialLocals w1) = None).
  { apply while_stalls; [exact Hwf|exact Hsign|].
    cbn [Solver.time Solver.initialLocals]. lra. }
  rewrite Hstall. reflexivity.
Qed.

Lemma runSimulation_never_ends_witness :
  let p := Params.mk 2 0 1 0.2 0 1.4 "data/outputs" 0.01 1 0 1 0.125 0 0.1 0.5 "outflow" in
  let w0 := Solver.mkWorld (Grid.mk 2 0 1 0.5 [Cell.mk 1 0 2.5; Cell.mk 0.125 0 0.25]) [] in
  (Grid.wf (Solver.grid w0) /\ Params.cfl p * Grid.dx_ (Solver.grid w0) <= 0 /\
   0 < Params.t_final p) /\
  fst (Solver.runSimulation 7 p w0) = None.
Proof.
  cbn zeta.
  assert (Hwf : Grid.wf (Solver.grid
            (Solver.mkWorld (Grid.mk 2 0 1 0.5 [Cell.mk 1 0 2.5; Cell.mk 0.125 0 0.25]) [])))
    by (split; cbn; lia).
  cbn [Params.cfl Params.t_final Solver.grid Grid.dx_].
  split; [split; [exact Hwf|lra]|].
  apply (runSimulation_never_ends 7
           (Params.mk 2 0 1 0.2 0 1.4 "data/outputs" 0.01 1 0 1 0.125 0 0.1 0.5 "outflow")
           (Solver.mkWorld (Grid.mk 2 0 1 0.5 [Cell.mk 1 0 2.5; Cell.mk 0.125 0 0.25]) [])
           Hwf); cbn [Params.cfl Params.t_final Solver.grid Grid.dx_]; lra.
Defined.

(** ** The driver on a uniform state: a run that provably ends *)

Lemma uniform_step_grid (g : Grid.t) (c : Cell.t) (time dt gamma : R) (bc : string) :
  Grid.wf g ->
  (forall c', c' ∈ Grid.cells_ g -> c' = c) ->
  bc <> "reflective"%string \/ Cell.mom c = 0 ->
  snd (Solver.step time dt gamma bc g) = g.
Proof.
  intros Hwf Hall Hbc.
  rewrite step_run; rewrite (uniform_bc g c) by assumption; [|reflexivity|exact Hwf].
  cbn [snd]. rewrite (uniform_update g c) by assumption.
  apply set_cells_id.
Qed.

Lemma loopBody_uniform (p : Params.t) (l : Solver.Locals) (w : Solver.World) (c : Cell.t) :
  Grid.wf (Solver.grid w) ->
  (forall c', c' ∈ Grid.cells_ (Solver.grid w) -> c' = c) ->
  Params.bc_type p <> "reflective"%string \/ Cell.mom c = 0 ->
  Solver.grid (snd (Solver.loopBody p l w)) = Solver.grid w.
Proof.
  intros Hwf Hall Hbc. rewrite loopBody_run.
  destruct (Rge_dec _ _); cbn [snd Solver.grid]; now apply (uniform_step_grid _ c).
Qed.

(** With a grid that does not change the CFL step is the same at every
    pass, and enough passes reach the final time. *)
Lemma while_uniform (fuel : nat) (p : Params.t) (l : Solver.Locals) (w : Solver.World)
    (c : Cell.t) :
  Grid.wf (Solver.grid w) ->
  (forall c', c' ∈ Grid.cells_ (Solver.grid w) -> c' = c) ->
  Params.bc_type p <> "reflective"%string \/ Cell.mom c = 0 ->
  let dt0 := fst (Solver.computeCFL (Params.cfl p) (Params.gamma p) (Solver.grid w)) in
  0 < dt0 ->
  Solver.time l <= Params.t_final p ->
  Params.t_final p - Solver.time l <= INR fuel * dt0 ->
  exists l', fst (Solver.while_ fuel p l w) = Some l' /\
             Solver.time l' = Params.t_final p /\
             Solver.grid (snd (Solver.while_ fuel p l w)) = Solver.grid w.
Proof.
  intros Hwf Hall Hbc dt0 Hdt0. revert l w Hwf Hall dt0 Hdt0.
  induction fuel as [|fuel IH]; intros l w Hwf Hall dt0 Hdt0 Hle Hfuel;
    cbn [Solver.while_];
    destruct (Rlt_dec (Solver.time l) (Params.t_final p)) as [Hlt|Hge].
  - cbn [INR] in Hfuel. lra.
  - exists l. cbn [fst snd ret]. repeat split. lra.
  - rewrite bind_run.
    pose proof (loopBody_uniform p l w c Hwf Hall Hbc) as Hgrid.
    pose proof (loopBody_time p l w) as Htime.
    unfold clampedDt in Htime. fold dt0 in Htime.
    destruct (IH (fst (Solver.loopBody p l w)) (snd (Solver.loopBody p l w)))
      as (l' & Hl' & Hfin & Hgrid').
    + now rewrite Hgrid.
    + now rewrite Hgrid.
    + rewrite Hgrid. exact Hdt0.
    + rewrite Htime. destruct (Rgt_dec _ _); lra.
    + rewrite Hgrid. fold dt0. rewrite Htime. rewrite S_INR in Hfuel.
      assert (0 <= INR fuel * dt0) by (apply Rmult_le_pos; [apply pos_INR|lra]).
      destruct (Rgt_dec _ _); lra.
    + exists l'. split; [exact Hl'|]. split; [exact Hfin|]. congruence.
  - exists l. cbn [fst snd ret]. repeat split. lra.
Qed.

(** X15.  On a uniform state the whole run is settled: for gamma > 1,
    cfl > 0, dx > 0 and t_final >= 0, under a boundary kind other than
    [reflective] (or under [reflective] with zero momentum), the driver ends
    after finitely many passes, leaves the grid exactly as it was and
    writes its last snapshot at the time [t_final]. *)
Theorem uniform_run_ends (p : Params.t) (w0 : Solver.World) (c : Cell.t) :
  Grid.wf (Solver.grid w0) ->
  (forall c', c' ∈ Grid.cells_ (Solver.grid w0) -> c' = c) ->
  Params.bc_type p <> "reflective"%string \/ Cell.mom c = 0 ->
  1 < Params.gamma p -> 0 < Params.cfl p -> 0 < Grid.dx_ (Solver.grid w0) ->
  0 <= Params.t_final p ->
  exists n : nat, forall fuel, (n <= fuel)%nat ->
    fst (Solver.runSimulation fuel p w0) = Some tt /\
    Solver.grid (snd (Solver.runSimulation fuel p w0)) = Solver.grid w0 /\
    exists idx rest,
      Solver.trace (snd (Solver.runSimulation fuel p w0)) =
      Log "Simulation Complete." :: Snapshot idx (Solver.grid w0) (Params.t_final p) :: rest.
Proof.
  intros Hwf Hall Hbc _ Hcfl Hdx Hfinal.
  set (dt0 := fst (Solver.computeCFL (Params.cfl p) (Params.gamma p) (Solver.grid w0))).
  assert (Hdt0 : 0 < dt0).
  { subst dt0.
    destruct (computeCFL_divisor (Solver.grid w0) (Params.cfl p) (Params.gamma p))
      as (m & Hm & ->).
    apply Rmult_lt_0_compat; [now apply Rmult_lt_0_compat|].
    apply Rinv_0_lt_compat. lra. }
  destruct (INR_unbounded (Params.t_final p / dt0)) as [n Hn].
  exists n. intros fuel Hfuel.
  unfold Solver.runSimulation. rewrite !bind_run.
  set (w1 := snd (Solver.emit _ (snd (Solver.emit _ (snd (Solver.emit _ w0)))))).
  assert (Hw1 : Solver.grid w1 = Solver.grid w0) by reflexivity.
  destruct (while_uniform fuel p Solver.initialLocals w1 c) as (l' & Hl' & Htime & Hgrid).
  - now rewrite Hw1.
  - now rewrite Hw1.
  - exact Hbc.
  - rewrite Hw1. exact Hdt0.
  - cbn [Solver.time Solver.initialLocals]. lra.
  - rewrite Hw1. fold dt0. cbn [Solver.time Solver.initialLocals].
    assert (Hnf : INR n <= INR fuel) by now apply le_INR.
    assert (Hq : Params.t_final p < INR n * dt0).
    { apply (Rmult_lt_compat_r dt0) in Hn; [|exact Hdt0].
      unfold Rdiv in Hn. rewrite Rmult_assoc, Rinv_l, Rmult_1_r in Hn by lra. lra. }
    assert (INR n * dt0 <= INR fuel * dt0) by (apply Rmult_le_compat_r; lra).
    lra.
  - rewrite Hl'. rewrite !bind_run.
    cbn [fst snd Solver.emit modify Solver.grid Solver.trace ret].
    split; [reflexivity|]. split; [congruence|].
    rewrite Hgrid, Hw1, Htime. eexists _, _. reflexivity.
Qed.

Lemma uniform_run_ends_witness :
  let p := Params.mk 2 0 1 0.2 0.8 1.4 "data/outputs" 0.01 1 0 1 1 0 1 0.5 "outflow" in
  let g := Grid.mk 2 0 1 0.5 [Cell.mk 1 0 2.5; Cell.mk 1 0 2.5] in
  let w0 := Solver.mkWorld g [] in
  (Grid.wf g /\ 1 < Params.gamma p /\ 0 < Params.cfl p /\ 0 < Grid.dx_ g /\
   0 <= Params.t_final p) /\
  exists n : nat, forall fuel, (n <= fuel)%nat ->
    fst (Solver.runSimulation fuel p w0) = Some tt.
Proof.
  cbn zeta.
  assert (Hwf : Grid.wf (Grid.mk 2 0 1 0.5 [Cell.mk 1 0 2.5; Cell.mk 1 0 2.5]))
    by (split; cbn; lia).
  cbn [Params.gamma Params.cfl Params.t_final Grid.dx_].
  split; [split; [exact Hwf|lra]|].
  destruct (uniform_run_ends
              (Params.mk 2 0 1 0.2 0.8 1.4 "data/outputs" 0.01 1 0 1 1 0 1 0.5 "outflow")
              (Solver.mkWorld (Grid.mk 2 0 1 0.5 [Cell.mk 1 0 2.5; Cell.mk 1 0 2.5]) [])
              (Cell.mk 1 0 2.5)) as [n Hn].
  - exact Hwf.
  - cbn [Solver.grid Grid.cells_]. intros c' Hc'.
    repeat (apply elem_of_cons in Hc' as [->|Hc']; [reflexivity|]).
    now apply elem_of_nil in Hc'.
  - left. discriminate.
  - cbn [Params.gamma]. lra.
  - cbn [Params.cfl]. lra.
  - cbn [Solver.grid Grid.dx_]. lra.
  - cbn [Params.t_final]. lra.
  - exists n. intros fuel Hfuel. now apply Hn.
Defined.

(** ** utils.cpp: the names of the snapshot files *)

Lemma append_inv_head (s x y : string) :
  String.append s x = String.append s y -> x = y.
Proof.
  induction s as [|a s IH]; cbn [String.append]; [auto|].
  intros [= H]. now apply IH.
Qed.

Lemma list_ascii_of_append (x y : string) :
  list_ascii_of_string (String.append x y)
  = list_ascii_of_string x ++ list_ascii_of_string y.
Proof.
  induction x as [|a x IH]; cbn [String.append list_ascii_of_string app]; [reflexivity|].
  now rewrite IH.
Qed.

Lemma append_inv_tail (x y s : string) :
  String.append x s = String.append y s -> x = y.
Proof.
  intros H. apply (f_equal list_ascii_of_string) in H.
  rewrite !list_ascii_of_append in H. apply app_inv_tail in H.
  apply (f_equal string_of_list_ascii) in H.
  now rewrite !string_of_list_ascii_of_string in H.
Qed.

(** The digits that [put_int] writes for a step that is not negative. *)
Lemma put_int_nonneg (step : Z) :
  (0 <= step)%Z ->
  exists d, Utils.put_int step = DecimalString.NilEmpty.string_of_uint d /\
            Z.of_uint d = step.
Proof.
  intros Hstep. unfold Utils.put_int.
  pose proof (DecimalZ.of_to step) as Hof.
  destruct step as [|q|q]; [| |lia]; cbn [Z.to_int] in *.
  - exists (Decimal.D0 Decimal.Nil). split; reflexivity.
  - exists (Pos.to_uint q). split; [|exact Hof].
    cbn [DecimalString.NilZero.string_of_int].
    unfold DecimalString.NilZero.string_of_uint.
    pose proof (DecimalPos.Unsigned.to_uint_nonnil q) as Hnil.
    now destruct (Pos.to_uint q).
Qed.

Lemma zeros_then_digits (k : nat) (d : Decimal.uint) :
  String.append (string_of_list_ascii (replicate k "0"%char))
                (DecimalString.NilEmpty.string_of_uint d)
  = DecimalString.NilEmpty.string_of_uint (Nat.iter k Decimal.D0 d).
Proof.
  induction k as [|k IH]; [reflexivity|].
  cbn [replicate string_of_list_ascii String.append Nat.iter
       DecimalString.NilEmpty.string_of_uint].
  now rewrite IH.
Qed.

Lemma of_uint_zeros (k : nat) (d : Decimal.uint) :
  Z.of_uint (Nat.iter k Decimal.D0 d) = Z.of_uint d.
Proof.
  induction k as [|k IH]; [reflexivity|].
  cbn [Nat.iter]. unfold Z.of_uint in *. cbn [Pos.of_uint]. exact IH.
Qed.

(** Two steps that are written alike behind their zeros are the same. *)
Lemma setw_put_int_inj (a b width : Z) :
  (0 <= a)%Z -> (0 <= b)%Z ->
  Utils.setw_fill0 width (Utils.put_int a) = Utils.setw_fill0 width (Utils.put_int b) ->
  a = b.
Proof.
  intros Ha Hb Heq.
  destruct (put_int_nonneg a Ha) as (da & Hda & Hofa).
  destruct (put_int_nonneg b Hb) as (db & Hdb & Hofb).
  unfold Utils.setw_fill0 in Heq. rewrite Hda, Hdb, !zeros_then_digits in Heq.
  apply (f_equal DecimalString.NilEmpty.uint_of_string) in Heq.
  rewrite !DecimalString.NilEmpty.usu in Heq. injection Heq as Heq.
  apply (f_equal Z.of_uint) in Heq. rewrite !of_uint_zeros in Heq. congruence.
Qed.

Lemma snapshotFile_inj (p : Params.t) (a b : Z) :
  (0 <= a)%Z -> (0 <= b)%Z -> Utils.snapshotFile p a = Utils.snapshotFile p b -> a = b.
Proof.
  intros Ha Hb Heq. unfold Utils.snapshotFile, Utils.formatSnapshotName in Heq.
  apply append_inv_head, append_inv_head, append_inv_tail in Heq.
  now apply (setw_put_int_inj a b Utils.default_width).
Qed.

Example formatSnapshotName_7 :
  Utils.formatSnapshotName 7 5 = "snapshot_00007.csv"%string.
Proof. reflexivity. Qed.

Example formatSnapshotName_long :
  Utils.formatSnapshotName 1234567 5 = "snapshot_1234567.csv"%string.
Proof. reflexivity. Qed.

Example formatSnapshotName_negative :
  Utils.formatSnapshotName (-1) 5 = "snapshot_000-1.csv"%string.
Proof. reflexivity. Qed.

(** X16.  [formatSnapshotName] never gives two steps the same name: for
    steps that are not negative and one width, equal names come from equal
    steps, whether the zeros fill the width or the digits overflow it. *)
Theorem formatSnapshotName_injective (a b width : Z) :
  (0 <= a)%Z -> (0 <= b)%Z ->
  Utils.formatSnapshotName a width = Utils.formatSnapshotName b width -> a = b.
Proof.
  intros Ha Hb Heq. unfold Utils.formatSnapshotName in Heq.
  apply append_inv_head, append_inv_tail in Heq.
  now apply (setw_put_int_inj a b width).
Qed.

Lemma formatSnapshotName_injective_witness :
  ((0 <= 3)%Z /\ (0 <= 3)%Z /\
   Utils.formatSnapshotName 3 5 = Utils.formatSnapshotName 3 5) /\ 3%Z = 3%Z.
Proof.
  split; [split; [lia|split; [lia|reflexivity]]|].
  apply (formatSnapshotName_injective 3 3 5); [lia|lia|reflexivity].
Defined.

(** X17.  A run never writes two snapshots to the same file: the file
    names [output_dir + "/" + formatSnapshotName(index)] of the snapshots
    that [runSimulation] emits are pairwise distinct, whatever the parameters
    and the number of passes. *)
Theorem runSimulation_files_distinct (fuel : nat) (p : Params.t) (w0 : Solver.World) :
  exists events : list Event,
    Solver.trace (snd (Solver.runSimulation fuel p w0)) = events ++ Solver.trace w0 /\
    NoDup (Utils.snapshotFile p <$> snapshotIndices events).
Proof.
  destruct (runSimulation_indices fuel p w0) as (events & n & Htrace & Hidx & _).
  exists events. split; [exact Htrace|].
  destruct (rev_seqZ_facts _ _ Hidx) as [Hnodup Hrange].
  apply NoDup_fmap_2_strong; [|exact Hnodup].
  intros a b Ha Hb Heq.
  apply (snapshotFile_inj p); [| |exact Heq].
  - specialize (Hrange a Ha). lia.
  - specialize (Hrange b Hb). lia.
Qed.

(** ** utils.cpp: the parameter file *)

Lemma find_absent (c : ascii) (s : Utils.text) :
  c ∉ s -> Utils.find c s = None.
Proof.
  induction s as [|a s IH]; intros Hc; cbn [Utils.find]; [reflexivity|].
  apply not_elem_of_cons in Hc as [Hne Hc].
  destruct (Ascii.eqb_spec a c); [congruence|]. now rewrite IH.
Qed.

Lemma find_first (c : ascii) (x y : Utils.text) :
  c ∉ x -> Utils.find c (x ++ c :: y) = Some (length x).
Proof.
  induction x as [|a x IH]; intros Hc; cbn [app Utils.find length].
  - now rewrite Ascii.eqb_refl.
  - apply not_elem_of_cons in Hc as [Hne Hc].
    destruct (Ascii.eqb_spec a c); [congruence|]. now rewrite IH.
Qed.

Lemma first_not_of_ws_all (s : Utils.text) :
  Forall (fun a => Utils.is_ws a = true) s -> Utils.find_first_not_of_ws s = None.
Proof.
  induction 1 as [|a s Ha _ IH]; cbn [Utils.find_first_not_of_ws]; [reflexivity|].
  now rewrite Ha, IH.
Qed.

Lemma first_not_of_ws_skip (w s : Utils.text) (a : ascii) :
  Forall (fun a => Utils.is_ws a = true) w -> Utils.is_ws a = false ->
  Utils.find_first_not_of_ws (w ++ a :: s) = Some (length w).
Proof.
  intros Hw Ha. induction Hw as [|b w Hb _ IH];
    cbn [app Utils.find_first_not_of_ws length].
  - now rewrite Ha.
  - now rewrite Hb, IH.
Qed.

Lemma last_not_of_ws_all (s : Utils.text) :
  Forall (fun a => Utils.is_ws a = true) s -> Utils.find_last_not_of_ws s = None.
Proof.
  induction 1 as [|a s Ha _ IH]; cbn [Utils.find_last_not_of_ws]; [reflexivity|].
  now rewrite IH, Ha.
Qed.

Lemma last_not_of_ws_end (s w : Utils.text) (a : ascii) :
  Utils.is_ws a = false -> Forall (fun a => Utils.is_ws a = true) w ->
  Utils.find_last_not_of_ws (s ++ a :: w) = Some (length s).
Proof.
  intros Ha Hw. induction s as [|b s IH]; cbn [app Utils.find_last_not_of_ws length].
  - now rewrite (last_not_of_ws_all w Hw), Ha.
  - now rewrite IH.
Qed.

Lemma trim_padded (w1 k w2 : Utils.text) :
  blank w1 -> blank w2 -> trimmed k -> Utils.trim (w1 ++ k ++ w2) = k.
Proof.
  intros Hw1 Hw2 [Hhead Hlast]. unfold Utils.trim.
  destruct k as [|a k'] using rev_ind.
  - cbn [app].
    rewrite (last_not_of_ws_all (w1 ++ w2)) by now apply Forall_app.
    cbn [take]. reflexivity.
  - clear IHk'.
    assert (Ha : Utils.is_ws a = false) by (apply Hlast, last_snoc).
    replace (w1 ++ (k' ++ [a]) ++ w2) with ((w1 ++ k') ++ a :: w2)
      by (rewrite <- !app_assoc; reflexivity).
    rewrite (last_not_of_ws_end _ w2 a Ha Hw2).
    replace ((w1 ++ k') ++ a :: w2) with (((w1 ++ k') ++ [a]) ++ w2)
      by (rewrite <- !app_assoc; reflexivity).
    replace (length (w1 ++ k') + 1)%nat with (length ((w1 ++ k') ++ [a]))
      by (rewrite (length_app _ [a]); reflexivity).
    rewrite take_app_length. rewrite <- app_assoc.
    destruct (k' ++ [a]) as [|b k''] eqn:Hk; [now destruct k'|].
    assert (Hb : Utils.is_ws b = false) by now apply Hhead.
    rewrite (first_not_of_ws_skip w1 k'' b Hw1 Hb).
    apply drop_app_length.
Qed.

Lemma strip_leading (s : Utils.text) :
  exists w r, s = w ++ r /\ blank w /\ forall a, head r = Some a -> Utils.is_ws a = false.
Proof.
  induction s as [|a s (w & r & -> & Hw & Hr)].
  - exists [], []. split; [reflexivity|]. split; [constructor|]. discriminate.
  - destruct (Utils.is_ws a) eqn:Ha.
    + exists (a :: w), r. split; [reflexivity|]. split; [now constructor|exact Hr].
    + exists [], (a :: w ++ r). split; [reflexivity|]. split; [constructor|].
      now intros ? [= <-].
Qed.

Lemma strip_trailing (s : Utils.text) :
  exists k w, s = k ++ w /\ blank w /\ forall a, last k = Some a -> Utils.is_ws a = false.
Proof.
  induction s as [|a s (k & w & -> & Hw & Hk)] using rev_ind.
  - exists [], []. split; [reflexivity|]. split; [constructor|]. discriminate.
  - destruct (Utils.is_ws a) eqn:Ha.
    + exists k, (w ++ [a]). split; [now rewrite app_assoc|].
      split; [apply Forall_app; split; [exact Hw|now repeat constructor]|exact Hk].
    + exists ((k ++ w) ++ [a]), []. split; [now rewrite app_nil_r|].
      split; [constructor|]. intros b Hb. rewrite last_snoc in Hb. congruence.
Qed.

(** Every text is whitespace, a trimmed core, whitespace. *)
Lemma text_decompose (s : Utils.text) :
  exists w1 k w2, s = w1 ++ k ++ w2 /\ blank w1 /\ blank w2 /\ trimmed k.
Proof.
  destruct (strip_leading s) as (w1 & r & -> & Hw1 & Hr).
  destruct (strip_trailing r) as (k & w2 & -> & Hw2 & Hk).
  exists w1, k, w2. split; [reflexivity|]. split; [exact Hw1|]. split; [exact Hw2|].
  split; [|exact Hk].
  intros a Ha. apply Hr. destruct k; [discriminate|exact Ha].
Qed.

Example trim_both_ends :
  Utils.trim (list_ascii_of_string "   left_rho  ") = list_ascii_of_string "left_rho".
Proof. reflexivity. Qed.

Example trim_keeps_inner_blanks :
  Utils.trim ("009"%char :: list_ascii_of_string "data dir ")
  = list_ascii_of_string "data dir".
Proof. reflexivity. Qed.

Example trim_whitespace_only :
  Utils.trim (list_ascii_of_string "    ") = [].
Proof. reflexivity. Qed.

(** X18.  The lambda [trim] removes the whitespace at both ends and
    nothing else: every text is [w1 ++ trim s ++ w2] with [w1] and [w2] made
    of the characters of [" \t\n\r\f\v"], and [trim s] neither starts nor
    ends with one of them; a text of whitespace only becomes empty, and
    trimming twice is trimming once. *)
Theorem trim_spec (s : Utils.text) :
  (exists w1 w2, s = w1 ++ Utils.trim s ++ w2 /\ blank w1 /\ blank w2) /\
  trimmed (Utils.trim s) /\
  (blank s -> Utils.trim s = []) /\
  Utils.trim (Utils.trim s) = Utils.trim s.
Proof.
  destruct (text_decompose s) as (w1 & k & w2 & -> & Hw1 & Hw2 & Hk).
  rewrite (trim_padded w1 k w2 Hw1 Hw2 Hk).
  split; [exists w1, w2; repeat split; assumption|].
  split; [exact Hk|]. split.
  - intros Hblank. apply Forall_app in Hblank as [_ Hblank].
    apply Forall_app in Hblank as [Hblank _].
    destruct k as [|a k]; [reflexivity|].
    apply Forall_cons in Hblank as [Ha _].
    destruct Hk as [Hhead _]. specialize (Hhead a eq_refl). congruence.
  - assert (Hnil : blank []) by constructor.
    pose proof (trim_padded [] k [] Hnil Hnil Hk) as Hid.
    cbn [app] in Hid. now rewrite app_nil_r in Hid.
Qed.

Lemma blank_no_char (w : Utils.text) (c : ascii) :
  Utils.is_ws c = false -> blank w -> c ∉ w.
Proof.
  intros Hc Hw Hin. unfold blank in Hw. rewrite Forall_forall in Hw.
  specialize (Hw c Hin). congruence.
Qed.

(** A line is cut at its first [#], then at its first [=]. *)
Lemma parseLine_split (stoi : string -> option Z) (stod : string -> option R)
    (K V : Utils.text) (comment : option Utils.text) (p : Params.t) :
  "#"%char ∉ K -> "="%char ∉ K -> "#"%char ∉ V ->
  Utils.parseLine stoi stod (K ++ "="%char :: V ++ commentTail comment) p
  = Utils.assign stoi stod (string_of_list_ascii (Utils.trim K))
                 (string_of_list_ascii (Utils.trim V)) p.
Proof.
  intros HK1 HK2 HV. unfold Utils.parseLine.
  assert (Hcut : match Utils.find "#"%char (K ++ "="%char :: V ++ commentTail comment) with
                 | Some comment_pos => take comment_pos (K ++ "="%char :: V ++ commentTail comment)
                 | None => K ++ "="%char :: V ++ commentTail comment
                 end = K ++ "="%char :: V).
  { assert (Hno : "#"%char ∉ K ++ "="%char :: V).
    { intros Hin. apply elem_of_app in Hin as [Hin|Hin]; [contradiction|].
      apply elem_of_cons in Hin as [Hin|Hin]; [discriminate|contradiction]. }
    destruct comment as [c|]; cbn [commentTail].
    - replace (K ++ "="%char :: V ++ "#"%char :: c)
        with ((K ++ "="%char :: V) ++ "#"%char :: c)
        by (rewrite <- app_assoc; reflexivity).
      rewrite (find_first _ _ c Hno). apply take_app_length.
    - rewrite app_nil_r, (find_absent _ _ Hno). reflexivity. }
  rewrite Hcut, (find_first _ K V HK2).
  rewrite take_app_length.
  replace (K ++ "="%char :: V) with ((K ++ ["="%char]) ++ V)
    by (rewrite <- app_assoc; reflexivity).
  replace (length K + 1)%nat with (length (K ++ ["="%char]))
    by (rewrite length_app; reflexivity).
  rewrite drop_app_length. reflexivity.
Qed.

(** X19.  A line [key = value] is read the same whatever whitespace
    surrounds the key and the value and whether or not a [#] comment follows:
    when the key holds no [#] and no [=], the value holds no [#], and neither
    starts or ends with whitespace, the line assigns exactly [value] to
    [key] (the value may hold [=] and inner blanks). *)
Theorem parseLine_assignment (stoi : string -> option Z) (stod : string -> option R)
    (w1 k w2 w3 v w4 : Utils.text) (comment : option Utils.text) (p : Params.t) :
  blank w1 -> blank w2 -> blank w3 -> blank w4 ->
  trimmed k -> trimmed v ->
  "#"%char ∉ k -> "="%char ∉ k -> "#"%char ∉ v ->
  Utils.parseLine stoi stod
    ((w1 ++ k ++ w2) ++ "="%char :: (w3 ++ v ++ w4) ++ commentTail comment) p
  = Utils.assign stoi stod (string_of_list_ascii k) (string_of_list_ascii v) p.
Proof.
  intros Hw1 Hw2 Hw3 Hw4 Hk Hv Hk1 Hk2 Hv1.
  assert (Hhash : Utils.is_ws "#"%char = false) by reflexivity.
  assert (Heq : Utils.is_ws "="%char = false) by reflexivity.
  rewrite parseLine_split.
  - now rewrite !trim_padded.
  - intros Hin. apply elem_of_app in Hin as [Hin|Hin];
      [now apply (blank_no_char w1 _ Hhash)|].
    apply elem_of_app in Hin as [Hin|Hin]; [contradiction|].
    now apply (blank_no_char w2 _ Hhash).
  - intros Hin. apply elem_of_app in Hin as [Hin|Hin];
      [now apply (blank_no_char w1 _ Heq)|].
    apply elem_of_app in Hin as [Hin|Hin]; [contradiction|].
    now apply (blank_no_char w2 _ Heq).
  - intros Hin. apply elem_of_app in Hin as [Hin|Hin];
      [now apply (blank_no_char w3 _ Hhash)|].
    apply elem_of_app in Hin as [Hin|Hin]; [contradiction|].
    now apply (blank_no_char w4 _ Hhash).
Qed.

Example parseLine_readme_bc_type (stoi : string -> option Z) (stod : string -> option R) :
  Utils.parseLine stoi stod
    (list_ascii_of_string "bc_type = reflective # Options: outflow, reflective")
    Utils.defaults
  = Some (Params.mk 100 0.0 1.0 0.2 0.8 1.4 "data/outputs" 0.01
            1.0 0.0 1.0 0.125 0.0 0.1 0.5 "reflective").
Proof. reflexivity. Qed.

Lemma parseLine_assignment_witness :
  let stoi := fun _ : string => Some 1%Z in
  let stod := fun _ : string => Some 0.45 in
  let k := list_ascii_of_string "cfl" in
  let v := list_ascii_of_string "0.45" in
  let sp := list_ascii_of_string " " in
  (blank sp /\ trimmed k /\ trimmed v) /\
  Utils.parseLine stoi stod
    (([] ++ k ++ sp) ++ "="%char :: (sp ++ v ++ []) ++ commentTail (Some sp)) Utils.defaults
  = Utils.assign stoi stod (string_of_list_ascii k) (string_of_list_ascii v) Utils.defaults.
Proof.
  cbn zeta.
  assert (Hnil : blank []) by constructor.
  assert (Hsp : blank (list_ascii_of_string " ")) by (repeat constructor).
  assert (Hk : trimmed (list_ascii_of_string "cfl"))
    by (split; intros a [= <-]; reflexivity).
  assert (Hv : trimmed (list_ascii_of_string "0.45"))
    by (split; intros a [= <-]; reflexivity).
  split; [split; [exact Hsp|split; [exact Hk|exact Hv]]|].
  apply (parseLine_assignment (fun _ => Some 1%Z) (fun _ => Some 0.45)
           [] (list_ascii_of_string "cfl") (list_ascii_of_string " ")
           (list_ascii_of_string " ") (list_ascii_of_string "0.45") []
           (Some (list_ascii_of_string " ")) Utils.defaults Hnil Hsp Hsp Hnil Hk Hv);
    cbn [list_ascii_of_string]; not_in_text.
Defined.

Lemma assign_unknown (stoi : string -> option Z) (stod : string -> option R)
    (key val_str : string) (p : Params.t) :
  key ∉ knownKeys -> Utils.assign stoi stod key val_str p = Some p.
Proof.
  intros Hkey. destruct p. unfold Utils.assign.
  repeat match goal with
  | |- context [String.eqb key ?s] =>
      destruct (String.eqb_spec key s) as [->|_];
      [exfalso; apply Hkey; unfold knownKeys;
       repeat first [apply list_elem_of_here | apply list_elem_of_further] |]
  end.
  reflexivity.
Qed.

Lemma parseLine_no_equal (stoi : string -> option Z) (stod : string -> option R)
    (x : Utils.text) (comment : option Utils.text) (p : Params.t) :
  "#"%char ∉ x -> "="%char ∉ x ->
  Utils.parseLine stoi stod (x ++ commentTail comment) p = Some p.
Proof.
  intros Hhash Heq. unfold Utils.parseLine.
  destruct comment as [c|]; cbn [commentTail].
  - rewrite (find_first _ x c Hhash), take_app_length, (find_absent _ _ Heq). reflexivity.
  - rewrite app_nil_r, (find_absent _ _ Hhash), (find_absent _ _ Heq). reflexivity.
Qed.

Lemma parseLine_inert (stoi : string -> option Z) (stod : string -> option R)
    (l : Utils.text) (p : Params.t) :
  inert l -> Utils.parseLine stoi stod l p = Some p.
Proof.
  intros [(x & comment & -> & Hhash & Heq)|(K & V & comment & -> & HK1 & HK2 & HV & Hkey)].
  - now apply parseLine_no_equal.
  - rewrite parseLine_split by assumption. now apply assign_unknown.
Qed.

Example parseParameterFile_sample :
  let stoi := fun s : string => if (s =? "400")%string then Some 400%Z else None in
  let stod := fun _ : string => @None R in
  Utils.parseParameterFile stoi stod
    (Some [list_ascii_of_string "# ENZO-style parameters";
           list_ascii_of_string "nx = 400";
           list_ascii_of_string "bc_type = reflective # Options: outflow, reflective";
           list_ascii_of_string "output_dir=run 1/out"])
  = Some (Params.mk 400 0.0 1.0 0.2 0.8 1.4 "run 1/out" 0.01
            1.0 0.0 1.0 0.125 0.0 0.1 0.5 "reflective").
Proof. reflexivity. Qed.

Example parseParameterFile_bad_number :
  let stoi := fun _ : string => @None Z in
  let stod := fun _ : string => @None R in
  Utils.parseParameterFile stoi stod
    (Some [list_ascii_of_string "cfl = fast";
           list_ascii_of_string "bc_type = reflective"])
  = None.
Proof. reflexivity. Qed.

(** X20.  The defaults survive everything that assigns nothing: a file
    that cannot be opened, an empty file, and a file whose lines are blank,
    comments, text without [=], or assignments to unknown keys all give the
    default parameters; the value of an unknown key is never converted, so
    it cannot make the parse fail. *)
Theorem parseParameterFile_defaults (stoi : string -> option Z) (stod : string -> option R) :
  Utils.parseParameterFile stoi stod None = Some Utils.defaults /\
  Utils.parseParameterFile stoi stod (Some []) = Some Utils.defaults /\
  forall lines : list Utils.text,
    (forall l, l ∈ lines -> inert l) ->
    Utils.parseParameterFile stoi stod (Some lines) = Some Utils.defaults.
Proof.
  split; [reflexivity|]. split; [reflexivity|].
  intros lines Hinert. unfold Utils.parseParameterFile.
  generalize Utils.defaults as p.
  induction lines as [|l lines IH]; intros p; cbn [fold_left]; [reflexivity|].
  cbn [mbind option_bind].
  rewrite (parseLine_inert stoi stod l p) by (apply Hinert; now left).
  apply IH. intros l' Hl'. apply Hinert. now right.
Qed.

Lemma parseParameterFile_defaults_witness :
  let stoi := fun _ : string => @None Z in
  let stod := fun _ : string => @None R in
  let lines := [list_ascii_of_string "# shock tube";
                list_ascii_of_string "";
                list_ascii_of_string "colour = blue  # not a parameter"] in
  Utils.parseParameterFile stoi stod (Some lines) = Some Utils.defaults.
Proof.
  cbn zeta.
  apply (parseParameterFile_defaults (fun _ => None) (fun _ => None)).
  intros l Hl.
  repeat (apply elem_of_cons in Hl as [->|Hl]).
  - left. exists [], (Some (list_ascii_of_string " shock tube")).
    split; [reflexivity|]. split; not_in_text.
  - left. exists [], None. split; [reflexivity|]. split; not_in_text.
  - right. exists (list_ascii_of_string "colour "),
             (list_ascii_of_string " blue  "),
             (Some (list_ascii_of_string " not a parameter")).
    split; [reflexivity|]. cbn [list_ascii_of_string].
    split; [not_in_text|]. split; [not_in_text|]. split; [not_in_text|].
    unfold knownKeys. cbn.
    intros H; repeat (apply elem_of_cons in H as [H|H]; [discriminate|]).
    now apply elem_of_nil in H.
  - now apply elem_of_nil in Hl.
Defined.

(** ** The flux and the step: symmetries *)

(** X21.  The HLL flux has no preferred direction: for gamma > 0,
    exchanging the two sides of an interface and reversing their velocities
    reverses the fluxes of mass and of energy and keeps the flux of
    momentum. *)
Theorem computeHLLFlux_mirror (L R' : Primitive.t) (gamma : R) :
  0 < gamma ->
  Solver.computeHLLFlux (mirrorState R') (mirrorState L) gamma
  = mirrorFlux (Solver.computeHLLFlux L R' gamma).
Proof.
  intros Hg.
  pose proof (soundSpeed_pos L gamma Hg) as HaL.
  pose proof (soundSpeed_pos R' gamma Hg) as HaR.
  unfold Solver.computeHLLFlux, Solver.waveSL, Solver.waveSR.
  assert (HmL : Solver.soundSpeed (mirrorState L) gamma = Solver.soundSpeed L gamma)
    by reflexivity.
  assert (HmR : Solver.soundSpeed (mirrorState R') gamma = Solver.soundSpeed R' gamma)
    by reflexivity.
  rewrite HmL, HmR.
  set (aL := Solver.soundSpeed L gamma) in *. set (aR := Solver.soundSpeed R' gamma) in *.
  destruct L as [rL uL pL], R' as [rR uR pR].
  unfold mirrorState, mirrorFlux, Solver.primitiveToConserved.
  cbn [Cell.rho Cell.mom Cell.energy Primitive.rho Primitive.u Primitive.p].
  rewrite !Std_min_Rmin, !Std_max_Rmax.
  assert (HSL : Rmin (- uR - aR) (- uL - aL) = - Rmax (uL + aL) (uR + aR)).
  { unfold Rmin, Rmax.
    destruct (Rle_dec (- uR - aR) (- uL - aL)), (Rle_dec (uL + aL) (uR + aR)); lra. }
  assert (HSR : Rmax (- uR + aR) (- uL + aL) = - Rmin (uL - aL) (uR - aR)).
  { unfold Rmin, Rmax.
    destruct (Rle_dec (- uR + aR) (- uL + aL)), (Rle_dec (uL - aL) (uR - aR)); lra. }
  rewrite HSL, HSR.
  set (SL := Rmin (uL - aL) (uR - aR)). set (SR := Rmax (uL + aL) (uR + aR)).
  assert (H1 : SL <= uL - aL) by apply Rmin_l.
  assert (H2 : uL + aL <= SR) by apply Rmax_l.
  destruct (Rge_dec (- SR) 0.0) as [Hm1|Hm1], (Rge_dec SL 0.0) as [Ho1|Ho1]; try lra.
  - destruct (Rle_dec SR 0.0) as [_|Hc]; [|lra].
    cbn [Flux.rho Flux.mom Flux.eng]. f_equal; ring.
  - destruct (Rle_dec (- SL) 0.0) as [_|Hc]; [|lra].
    cbn [Flux.rho Flux.mom Flux.eng]. f_equal; ring.
  - destruct (Rle_dec (- SL) 0.0) as [Hc|_]; [lra|].
    destruct (Rle_dec SR 0.0) as [Hc|_]; [lra|].
    cbn [Flux.rho Flux.mom Flux.eng].
    replace (- SL - - SR) with (SR - SL) by ring.
    f_equal; ring.
Qed.

Lemma computeHLLFlux_mirror_witness :
  let L := Primitive.mk 1 0.75 1 in
  let R' := Primitive.mk 0.125 0 0.1 in
  0 < 1.4 /\
  Solver.computeHLLFlux (mirrorState R') (mirrorState L) 1.4
  = mirrorFlux (Solver.computeHLLFlux L R' 1.4).
Proof.
  cbn zeta. split; [lra|].
  apply (computeHLLFlux_mirror (Primitive.mk 1 0.75 1) (Primitive.mk 0.125 0 0.1) 1.4).
  lra.
Defined.

Lemma interfaceFlux_not_reflective (cells : list Cell.t) (nx : Z) (gamma : R)
    (bc : string) (i : Z) :
  bc <> "reflective"%string ->
  interfaceFlux cells nx gamma bc i = interfaceFlux cells nx gamma "outflow" i.
Proof.
  intros Hbc. unfold interfaceFlux, Solver.interfaceStates.
  destruct (String.eqb_spec bc "reflective") as [|_]; [contradiction|].
  reflexivity.
Qed.

(** X22.  The kind of boundary matters only through being [reflective] or
    not: [transmissive] and every unrecognized kind give exactly the step of
    [outflow], the same grid and the same time, without any report. *)
Theorem step_other_kinds_are_outflow (g : Grid.t) (time dt gamma : R) (bc : string) :
  Grid.wf g -> bc <> "reflective"%string ->
  Solver.step time dt gamma bc g = Solver.step time dt gamma "outflow" g.
Proof.
  intros Hwf Hbc.
  assert (Hg1 : snd (Grid.applyBoundaryConditions bc g) = g)
    by now rewrite applyBoundaryConditions_other.
  assert (Hg2 : snd (Grid.applyBoundaryConditions "outflow" g) = g)
    by (rewrite applyBoundaryConditions_other; [reflexivity|discriminate]).
  rewrite !step_run; rewrite ?Hg1, ?Hg2; try reflexivity; try exact Hwf.
  rewrite !computeFluxes_run. cbn [fst].
  assert (HF : map (interfaceFlux (Grid.cells_ g) (Grid.nx_ g) gamma bc)
                   (seqZ 0 (Grid.nx_ g + 1))
               = map (interfaceFlux (Grid.cells_ g) (Grid.nx_ g) gamma "outflow")
                     (seqZ 0 (Grid.nx_ g + 1))).
  { apply map_ext. intros i. now apply interfaceFlux_not_reflective. }
  now rewrite HF.
Qed.

Lemma step_other_kinds_are_outflow_witness :
  let g := Grid.mk 2 0 1 0.5 [Cell.mk 1 0 2.5; Cell.mk 0.125 0 0.25] in
  (Grid.wf g /\ "periodic"%string <> "reflective"%string) /\
  Solver.step 0 0.1 1.4 "periodic" g = Solver.step 0 0.1 1.4 "outflow" g.
Proof.
  cbn zeta.
  assert (Hwf : Grid.wf (Grid.mk 2 0 1 0.5 [Cell.mk 1 0 2.5; Cell.mk 0.125 0 0.25]))
    by (split; cbn; lia).
  split; [split; [exact Hwf|discriminate]|].
  apply (step_other_kinds_are_outflow
           (Grid.mk 2 0 1 0.5 [Cell.mk 1 0 2.5; Cell.mk 0.125 0 0.25])
           0 0.1 1.4 "periodic" Hwf).
  discriminate.
Defined.
